(** * Terminal music player: controller, playback engine and layout

    Shallow embedding of [src/src/common.rs], [src/src/main.rs] (the
    controller loop of [run], [App::get_layout], [scan_directory]),
    [src/src/player/mod.rs] ([start]), [src/src/ui/layout.rs]
    ([LayoutManager::calculate_layout]) and [src/src/ui/widgets.rs]
    ([format_time]). *)

From Stdlib Require Import ZArith NArith List String Ascii Bool Lia.
From Stdlib Require DecimalN DecimalPos.
Import ListNotations.
Open Scope string_scope.

(* ------------------------------------------------------------------ *)
(** ** [f32]: IEEE-754 binary32 arithmetic for the volume field *)

Module F32.
Local Open Scope Z_scope.

(** A finite binary32 value [f32_m * 2 ^ f32_e].  The values below are all
    produced by [round32], so they are representable; infinities and NaN
    never arise on the volume path (every value stays within [0, 2.05]). *)
Record f32 := mk { f32_m : Z; f32_e : Z }.

(** Round the exact value [m * 2 ^ e] to 24 significant bits, to nearest,
    ties to even, with the subnormal exponent floor [-149]. *)
Definition round32 (m e : Z) : f32 :=
  if Z.eqb m 0 then mk 0 0 else
  let a := Z.abs m in
  let s := Z.max (Z.log2 a + 1 - 24) (-149 - e) in
  if Z.leb s 0 then mk m e else
  let q := Z.shiftr a s in
  let r := a - Z.shiftl q s in
  let half := Z.shiftl 1 (s - 1) in
  let q' := if Z.ltb half r || (Z.eqb r half && Z.odd q) then q + 1 else q in
  mk (Z.sgn m * q') (e + s).

(** Both operands brought to the smaller exponent. *)
Definition align (x y : f32) : Z * Z * Z :=
  let e := Z.min (f32_e x) (f32_e y) in
  (f32_m x * 2 ^ (f32_e x - e), f32_m y * 2 ^ (f32_e y - e), e).

Definition add (x y : f32) : f32 :=
  let '(a, b, e) := align x y in round32 (a + b) e.

Definition sub (x y : f32) : f32 :=
  let '(a, b, e) := align x y in round32 (a - b) e.

Definition cmp (x y : f32) : comparison :=
  let '(a, b, _) := align x y in Z.compare a b.

Definition lt (x y : f32) : bool :=
  match cmp x y with Lt => true | _ => false end.

Definition le (x y : f32) : bool :=
  match cmp x y with Gt => false | _ => true end.

(** [f32::min] and [f32::max] on non-NaN operands. *)
Definition min (x y : f32) : f32 := if lt y x then y else x.
Definition max (x y : f32) : f32 := if lt x y then y else x.

(** The literals of the source: [0.0], [1.0], [2.0] and [0.05]
    (the binary32 nearest to 1/20 is 13421773 * 2^-28). *)
Definition zero : f32 := mk 0 0.
Definition one : f32 := mk 1 0.
Definition two : f32 := mk 1 1.
Definition c0_05 : f32 := mk 13421773 (-28).

End F32.

(* ------------------------------------------------------------------ *)
(** ** [common.rs]: tracks, status, commands and events *)

Module Common.

(** [std::time::Duration] and [std::time::Instant], as a count of time
    units. *)
Definition Duration := N.
Definition Instant := N.
Definition PathBuf := string.

Record Track := mkTrack {
  id : N;
  path : PathBuf;
  duration : option Duration;
  title : option string
}.

Inductive PlaybackStatus := Stopped | Paused | Playing.

Definition PlaybackStatus_eqb (a b : PlaybackStatus) : bool :=
  match a, b with
  | Stopped, Stopped | Paused, Paused | Playing, Playing => true
  | _, _ => false
  end.

Inductive AppCommand :=
| Play (index : nat) (path : PathBuf)
| TogglePlayPause
| SetVolume (v : F32.f32).

Inductive AppEvent :=
| TrackStarted (index : nat) (duration : option Duration)
| Progress (position : Duration)
| TrackEnded
| Error (message : string).

End Common.

(* ------------------------------------------------------------------ *)
(** ** [main.rs]: the controller state and its event and key handlers *)

Module Controller.
Import Common.

(** The fields of [App] that the event and key handlers read or write.
    The command channel [cmd_tx] is modelled by returning the list of
    commands sent; the rendering fields (wave, theme, layout cache) are not
    touched by these handlers. *)
Record App := mkApp {
  tracks : list Track;
  selected : nat;
  playing : option nat;
  status : PlaybackStatus;
  position : Duration;
  total : option Duration;
  volume : F32.f32
}.

(** [App::new]. *)
Definition new (ts : list Track) : App :=
  mkApp ts 0 None Stopped 0%N None F32.one.

Definition set_selected (a : App) (n : nat) : App :=
  mkApp (tracks a) n (playing a) (status a) (position a) (total a) (volume a).
Definition set_volume (a : App) (v : F32.f32) : App :=
  mkApp (tracks a) (selected a) (playing a) (status a) (position a) (total a) v.

(** [app.tracks[i].clone()]: [None] is the index-out-of-bounds panic. *)
Definition track_at (a : App) (i : nat) : option Track := nth_error (tracks a) i.

(** One arm of the [match evt] in the event-draining loop of [run]
    (main.rs lines 200-225).  [None] is a panic. *)
Definition handle_event (a : App) (evt : AppEvent) : option (App * list AppCommand) :=
  match evt with
  | TrackStarted index d =>
      Some (mkApp (tracks a) (selected a) (Some index) Playing 0%N d (volume a), [])
  | Progress p =>
      Some (mkApp (tracks a) (selected a) (playing a) (status a) p (total a) (volume a), [])
  | TrackEnded =>
      match playing a with
      | Some i =>
          let next := if Nat.ltb (i + 1) (List.length (tracks a)) then i + 1 else i in
          let a1 := set_selected a next in
          match track_at a1 next with
          | Some t => Some (a1, [Play next (path t)])
          | None => None
          end
      | None => Some (a, [])
      end
  | Error _ =>
      Some (mkApp (tracks a) (selected a) (playing a) Stopped (position a) (total a) (volume a), [])
  end.

(** [while let Ok(evt) = app.evt_rx.try_recv()]: fold the pending events in
    order, collecting the commands sent. *)
Fixpoint drain (a : App) (evts : list AppEvent) : option (App * list AppCommand) :=
  match evts with
  | [] => Some (a, [])
  | e :: es =>
      match handle_event a e with
      | Some (a1, c1) =>
          match drain a1 es with
          | Some (a2, c2) => Some (a2, (c1 ++ c2)%list)
          | None => None
          end
      | None => None
      end
  end.

Inductive KeyCode := KChar (c : Ascii.ascii) | KDown | KUp | KEnter | KOther.

Inductive Outcome :=
| Quit
| Continue (a : App) (cmds : list AppCommand).

Definition volume_up (v : F32.f32) : F32.f32 := F32.min (F32.add v F32.c0_05) F32.two.
Definition volume_down (v : F32.f32) : F32.f32 := F32.max (F32.sub v F32.c0_05) F32.zero.

Definition play_at (a : App) (i : nat) : option Outcome :=
  let a1 := set_selected a i in
  match track_at a1 i with
  | Some t => Some (Continue a1 [Play i (path t)])
  | None => None
  end.

(** [KeyCode::Down | KeyCode::Char('j')]. *)
Definition key_down (a : App) : App :=
  if Nat.ltb (selected a + 1) (List.length (tracks a)) then set_selected a (selected a + 1) else a.

(** [KeyCode::Up | KeyCode::Char('k')]. *)
Definition key_up (a : App) : App :=
  if Nat.ltb 0 (selected a) then set_selected a (selected a - 1) else a.

(** The [match key.code] of [run] (main.rs lines 291-327) for a key press.
    [None] is a panic. *)
Definition handle_key (a : App) (k : KeyCode) : option Outcome :=
  match k with
  | KDown => Some (Continue (key_down a) [])
  | KUp => Some (Continue (key_up a) [])
  | KEnter =>
      match track_at a (selected a) with
      | Some t => Some (Continue a [Play (selected a) (path t)])
      | None => None
      end
  | KChar c =>
      if Ascii.eqb c "q"%char then Some Quit
      else if Ascii.eqb c "j"%char then Some (Continue (key_down a) [])
      else if Ascii.eqb c "k"%char then Some (Continue (key_up a) [])
      else if Ascii.eqb c " "%char then Some (Continue a [TogglePlayPause])
      else if Ascii.eqb c "]"%char then
        play_at a (if Nat.ltb (selected a + 1) (List.length (tracks a)) then selected a + 1 else selected a)
      else if Ascii.eqb c "["%char then
        play_at a (if Nat.ltb 0 (selected a) then selected a - 1 else 0)
      else if Ascii.eqb c "+"%char then
        let v := volume_up (volume a) in Some (Continue (set_volume a v) [SetVolume v])
      else if Ascii.eqb c "-"%char then
        let v := volume_down (volume a) in Some (Continue (set_volume a v) [SetVolume v])
      else Some (Continue a [])
  | KOther => Some (Continue a [])
  end.

(** Pressing the same key [n] times, as long as the loop continues. *)
Fixpoint press_n (a : App) (k : KeyCode) (n : nat) : option App :=
  match n with
  | O => Some a
  | S n' =>
      match handle_key a k with
      | Some (Continue a1 _) => press_n a1 k n'
      | _ => None
      end
  end.

End Controller.

(* ------------------------------------------------------------------ *)
(** ** [player/mod.rs]: the playback engine thread *)

Module Engine.
Import Common.

(** A decoded [rodio::Decoder]: only [total_duration()] is observed. *)
Record Source := mkSource { total_duration : option Duration }.

(** The file system and the decoder, as the engine sees them:
    [File::open] and [Decoder::new]. *)
Record Env := mkEnv {
  open_file : PathBuf -> option string;
  decode : string -> option Source
}.

(** A [rodio::Sink] holding one appended source. *)
Record Sink := mkSink {
  sink_paused : bool;
  sink_volume : F32.f32;
  sink_source : Source
}.

(** The locals of the spawned closure: [sink], [volume], [start_at],
    [paused_acc]. *)
Record State := mkState {
  sink : option Sink;
  volume : F32.f32;
  start_at : option Instant;
  paused_acc : Duration
}.

Definition init : State := mkState None F32.one None 0%N.

(** [t0.elapsed()] read at instant [now]; [Instant::duration_since]
    saturates at zero. *)
Definition elapsed (now t0 : Instant) : Duration := (now - t0)%N.

(** [Duration - Duration] and [Instant - Duration]: both panic on
    underflow ([None]). *)
Definition checked_sub (a b : N) : option N :=
  if N.leb b a then Some (a - b)%N else None.

(** One command of the [while let Ok(cmd) = cmd_rx.try_recv()] loop,
    processed at instant [now] (player/mod.rs lines 66-95).  [None] is a
    panic. *)
Definition exec_cmd (env : Env) (now : Instant) (st : State) (cmd : AppCommand)
  : option (State * list AppEvent) :=
  match cmd with
  | Play index p =>
      (* if let Some(s) = sink.take() { s.stop(); } *)
      let st1 := mkState None (volume st) (start_at st) (paused_acc st) in
      match open_file env p with
      | None => Some (st1, [Error ("无法打开文件: " ++ p)])
      | Some f =>
          match decode env f with
          | None => Some (st1, [Error ("不支持的格式: " ++ p)])
          | Some src =>
              let s := mkSink false (volume st) src in
              Some (mkState (Some s) (volume st) (Some now) 0%N,
                    [TrackStarted index (total_duration src)])
          end
      end
  | TogglePlayPause =>
      match sink st with
      | None => Some (st, [])
      | Some s =>
          if sink_paused s then
            let s' := mkSink false (sink_volume s) (sink_source s) in
            match start_at st with
            | Some t0 =>
                match checked_sub (elapsed now t0) (paused_acc st) with
                | Some d =>
                    match checked_sub now d with
                    | Some t1 => Some (mkState (Some s') (volume st) (Some t1) (paused_acc st), [])
                    | None => None
                    end
                | None => None
                end
            | None => Some (mkState (Some s') (volume st) None (paused_acc st), [])
            end
          else
            let s' := mkSink true (sink_volume s) (sink_source s) in
            match start_at st with
            | Some t0 => Some (mkState (Some s') (volume st) (Some t0) (elapsed now t0), [])
            | None => Some (mkState (Some s') (volume st) None (paused_acc st), [])
            end
      end
  | SetVolume v =>
      let sk := match sink st with
                | Some s => Some (mkSink (sink_paused s) v (sink_source s))
                | None => None
                end in
      Some (mkState sk v (start_at st) (paused_acc st), [])
  end.

(** The periodic check after the command loop (player/mod.rs lines
    98-108), at instant [now]; [empty] is what [s.empty()] returns. *)
Definition tick (now : Instant) (empty : bool) (st : State) : State * list AppEvent :=
  match sink st with
  | Some _ =>
      if empty then (mkState None (volume st) None 0%N, [TrackEnded])
      else match start_at st with
           | Some t0 => (st, [Progress (elapsed now t0)])
           | None => (st, [])
           end
  | None => (st, [])
  end.

(** What the engine thread observes: a command received at an instant, or
    the end of a loop iteration (the periodic check) at an instant. *)
Inductive Input :=
| Cmd (now : Instant) (c : AppCommand)
| Tick (now : Instant) (empty : bool).

(** The engine loop over a schedule of inputs, collecting the events sent
    on [evt_tx] in order. *)
Fixpoint run (env : Env) (st : State) (ins : list Input) : option (State * list AppEvent) :=
  match ins with
  | [] => Some (st, [])
  | Cmd now c :: rest =>
      match exec_cmd env now st c with
      | Some (st1, e1) =>
          match run env st1 rest with
          | Some (st2, e2) => Some (st2, (e1 ++ e2)%list)
          | None => None
          end
      | None => None
      end
  | Tick now em :: rest =>
      let '(st1, e1) := tick now em st in
      match run env st1 rest with
      | Some (st2, e2) => Some (st2, (e1 ++ e2)%list)
      | None => None
      end
  end.

(** How the spawned thread ends up: it panics at
    [OutputStream::try_default().unwrap()] when no output device exists,
    otherwise it serves commands from [init]. *)
Inductive ThreadOutcome := Panicked (msg : string) | Serving (st : State).

Record JoinHandle := mkJoinHandle { thread_outcome : ThreadOutcome }.

Inductive Result (A : Type) := Ok (a : A) | Err (e : string).
Arguments Ok {A} a.
Arguments Err {A} e.

Definition thread_body (device_available : bool) : ThreadOutcome :=
  if device_available then Serving init
  else Panicked "called `Result::unwrap()` on an `Err` value: NoDevice".

(** [player::start]: spawns the thread and returns [Ok(handle)]. *)
Definition start (device_available : bool) : Result JoinHandle :=
  Ok (mkJoinHandle (thread_body device_available)).

End Engine.

(** The start-up of [run] up to the player: [player::start(...)?].
    [Err] aborts [run], and [main] prints the error. *)
Definition run_startup (device_available : bool) : Engine.Result unit :=
  match Engine.start device_available with
  | Engine.Ok _ => Engine.Ok tt
  | Engine.Err e => Engine.Err e
  end.

(* ------------------------------------------------------------------ *)
(** ** [ui/layout.rs]: the layout calculator *)

Module Layout.
Local Open Scope N_scope.

(** [ratatui::layout::Rect] (u16 fields). *)
Record Rect := mkRect { x : N; y : N; width : N; height : N }.

Inductive Direction := Vertical | Horizontal.

(** The [ratatui::layout::Constraint] variants the calculator uses. *)
Inductive Constraint := Length (n : N) | Min (n : N) | Percentage (p : N).

Record AppLayout := mkAppLayout {
  now_playing : Rect;
  track_list : Rect;
  visualization : option Rect;
  playback_control : Rect;
  status_bar : Rect
}.

Section Calculate.

(** [Layout::default().direction(d).constraints(cs).split(area)], the
    constraint solver of the ratatui library. *)
Variable split : Direction -> list Constraint -> Rect -> list Rect.

(** [LayoutManager::is_compact_mode]. *)
Definition is_compact_mode (size : Rect) : bool := width size <? 80.

(** [LayoutManager::calculate_layout]; [None] is the index-out-of-bounds
    panic of [vertical_chunks[i]] or [horizontal_chunks[i]]. *)
Definition calculate_layout (size : Rect) : option AppLayout :=
  let now_playing_height := if height size <? 20 then 3 else 5 in
  let playback_control_height := if height size <? 20 then 4 else 5 in
  let status_bar_height := 1 in
  let vertical_chunks :=
    split Vertical [Length now_playing_height;       (* Top: Now Playing *)
                    Min 5;                           (* Middle: main content *)
                    Length playback_control_height;  (* Bottom: playback controls *)
                    Length status_bar_height]        (* Bottom-most: status bar *)
          size in
  match nth_error vertical_chunks 0, nth_error vertical_chunks 1,
        nth_error vertical_chunks 2, nth_error vertical_chunks 3 with
  | Some np, Some middle_area, Some pc, Some sb =>
      if is_compact_mode size then Some (mkAppLayout np middle_area None pc sb)
      else
        let horizontal_chunks := split Horizontal [Percentage 55; Percentage 45] middle_area in
        match nth_error horizontal_chunks 0, nth_error horizontal_chunks 1 with
        | Some tl, Some vz => Some (mkAppLayout np tl (Some vz) pc sb)
        | _, _ => None
        end
  | _, _, _, _ => None
  end.

End Calculate.

(** [Rect::new(0, 0, width, height)], the frame size. *)
Definition terminal (w h : N) : Rect := mkRect 0 0 w h.

(** *** What ratatui's [Layout::split] guarantees *)

(** Segments placed one after the other, without overlap, inside
    [lo, hi]. *)
Fixpoint chain_v (lo hi : N) (rs : list Rect) : Prop :=
  match rs with
  | [] => lo <= hi
  | r :: rs' => lo <= y r /\ chain_v (y r + height r) hi rs'
  end.

Fixpoint chain_h (lo hi : N) (rs : list Rect) : Prop :=
  match rs with
  | [] => lo <= hi
  | r :: rs' => lo <= x r /\ chain_h (x r + width r) hi rs'
  end.

(** Always: one segment per constraint, each spanning the area across the
    split direction, in order and inside the area along it. *)
Definition split_tiles (split : Direction -> list Constraint -> Rect -> list Rect) : Prop :=
  forall d cs area,
    List.length (split d cs area) = List.length cs /\
    match d with
    | Vertical =>
        Forall (fun r => x r = x area /\ width r = width area) (split d cs area) /\
        chain_v (y area) (y area + height area) (split d cs area)
    | Horizontal =>
        Forall (fun r => y r = y area /\ height r = height area) (split d cs area) /\
        chain_h (x area) (x area + width area) (split d cs area)
    end.

(** When the lengths and the minimum fit, the lengths are met exactly and
    the [Min] segment takes the rest of the area. *)
Definition split_exact_fit (split : Direction -> list Constraint -> Rect -> list Rect) : Prop :=
  forall area a m b c,
    a + m + b + c <= height area ->
    split Vertical [Length a; Min m; Length b; Length c] area =
      [mkRect (x area) (y area) (width area) a;
       mkRect (x area) (y area + a) (width area) (height area - a - b - c);
       mkRect (x area) (y area + height area - b - c) (width area) b;
       mkRect (x area) (y area + height area - c) (width area) c].

(** Two percentages summing to 100 split the width exactly, the first
    segment within one cell of its share. *)
Definition split_percent (split : Direction -> list Constraint -> Rect -> list Rect) : Prop :=
  forall area p q,
    p + q = 100 ->
    exists w1,
      w1 <= width area /\
      100 * w1 <= p * width area + 100 /\ p * width area <= 100 * w1 + 100 /\
      split Horizontal [Percentage p; Percentage q] area =
        [mkRect (x area) (y area) w1 (height area);
         mkRect (x area + w1) (y area) (width area - w1) (height area)].

(** *** A concrete solver meeting these guarantees *)

(** The size each constraint asks for out of [total]. *)
Definition request (total : N) (c : Constraint) : N :=
  match c with
  | Length n | Min n => n
  | Percentage p => (p * total + 50) / 100
  end.

(** Excess space goes to the first [Min] segment. *)
Fixpoint grow_first_min (extra : N) (cs : list Constraint) (rs : list N) : list N :=
  match cs, rs with
  | Min _ :: cs', r :: rs' => (r + extra) :: rs'
  | _ :: cs', r :: rs' => r :: grow_first_min extra cs' rs'
  | _, _ => rs
  end.

(** Sizes are granted in order while space remains. *)
Fixpoint greedy (rem : N) (rs : list N) : list N :=
  match rs with
  | [] => []
  | r :: rs' => let s := N.min r rem in s :: greedy (rem - s) rs'
  end.

Definition sum (l : list N) : N := fold_right N.add 0 l.

Definition sizes (total : N) (cs : list Constraint) : list N :=
  let rs := map (request total) cs in
  let rs' := if sum rs <=? total then grow_first_min (total - sum rs) cs rs else rs in
  greedy total rs'.

Fixpoint place (d : Direction) (area : Rect) (pos : N) (ss : list N) : list Rect :=
  match ss with
  | [] => []
  | s :: ss' =>
      let r := match d with
               | Vertical => mkRect (x area) pos (width area) s
               | Horizontal => mkRect pos (y area) s (height area)
               end in
      r :: place d area (pos + s) ss'
  end.

Definition model_split (d : Direction) (cs : list Constraint) (area : Rect) : list Rect :=
  match d with
  | Vertical => place d area (y area) (sizes (height area) cs)
  | Horizontal => place d area (x area) (sizes (width area) cs)
  end.

(** *** What ratatui's [Layout::split] does when the rows overflow *)

(** On the small-terminal constraints [Length 3; Min 5; Length 4;
    Length 1] (heights below 20), an area of height 10 to 12 cannot hold
    the 13 rows asked for.  The solver then keeps the 5-row minimum and
    shrinks the fixed rows, keeping the final single row at the bottom of
    the area: ratatui's solver weakly prefers equal segment sizes, so it
    takes the rows from the larger segments first, and the repository's
    test [prop_status_bar_at_bottom] checks this bottom row from height
    10 upwards. *)
Definition split_small_overflow (split : Direction -> list Constraint -> Rect -> list Rect) : Prop :=
  forall area,
    10 <= height area -> height area < 13 ->
    exists r0 r1 r2,
      split Vertical [Length 3; Min 5; Length 4; Length 1] area =
        [r0; r1; r2; mkRect (x area) (y area + height area - 1) (width area) 1].

(** The sizes asked for, before space runs out. *)
Definition requests (total : N) (cs : list Constraint) : list N :=
  let rs := map (request total) cs in
  if sum rs <=? total then grow_first_min (total - sum rs) cs rs else rs.

(** A second concrete solver: like [model_split], but on a vertical
    overflow it grants the sizes from the last segment upwards, so the
    earliest rows are the ones shrunk. *)
Definition model_split_rev (d : Direction) (cs : list Constraint) (area : Rect) : list Rect :=
  match d with
  | Vertical => place d area (y area) (rev (greedy (height area) (rev (requests (height area) cs))))
  | Horizontal => model_split d cs area
  end.

End Layout.

(* ------------------------------------------------------------------ *)
(** ** [main.rs]: the waveform window, the layout cache, the scan *)

Module Wave.

(** [if !app.wave.is_empty() { app.wave.remove(0); } app.wave.push(sample);]
    (main.rs lines 342-345). *)
Definition wave_update (wave : list N) (sample : N) : list N :=
  ((match wave with [] => [] | _ :: rest => rest end) ++ [sample])%list.

(** The window after one update per loop iteration, for the samples of
    successive iterations. *)
Definition wave_feed (wave : list N) (samples : list N) : list N :=
  fold_left wave_update samples wave.

(** [vec![0; 80]] in [App::new]. *)
Definition initial_wave : list N := repeat 0%N 80.

End Wave.

Module LayoutCache.
Import Layout.
Local Open Scope N_scope.

Section Cache.
Variable split : Direction -> list Constraint -> Rect -> list Rect.

(** [App::cached_layout]. *)
Definition Cache := option (N * N * AppLayout).

(** [App::get_layout] (main.rs lines 116-132): the new cache and the
    layout returned.  [None] is a panic of [calculate_layout] or of the
    final [unwrap]. *)
Definition get_layout (cache : Cache) (width height : N) : option (Cache * AppLayout) :=
  let needs_recalc :=
    match cache with
    | Some (cached_w, cached_h, _) => negb (cached_w =? width) || negb (cached_h =? height)
    | None => true
    end in
  let cache' :=
    if needs_recalc then
      match calculate_layout split (mkRect 0 0 width height) with
      | Some layout => Some (Some (width, height, layout))
      | None => None
      end
    else Some cache in
  match cache' with
  | Some (Some (cw, ch, l)) => Some (Some (cw, ch, l), l)
  | _ => None
  end.

(** The cache holds the layout of the size it is keyed by. *)
Definition cache_ok (cache : Cache) : Prop :=
  match cache with
  | Some (w, h, l) => calculate_layout split (mkRect 0 0 w h) = Some l
  | None => True
  end.

End Cache.
End LayoutCache.

Module Scan.
Import Common.

(** What [WalkDir::new(dir).into_iter()] yields: [None] for an [Err] entry
    (dropped by [filter_map(|e| e.ok())]), otherwise the entry's path and
    whether it is a regular file.  Paths are joined components, as walkdir
    produces them; a [string] here is the path's bytes, as [OsStr] holds
    them on Unix. *)
Record DirEntry := mkDirEntry { entry_path : PathBuf; entry_is_file : bool }.

Definition slash : Ascii.ascii := "/"%char.
Definition dot : Ascii.ascii := "."%char.

(** Index of the last occurrence of [c] in [s]. *)
Fixpoint last_index (c : Ascii.ascii) (s : string) : option nat :=
  match s with
  | EmptyString => None
  | String c' s' =>
      match last_index c s' with
      | Some i => Some (S i)
      | None => if Ascii.eqb c c' then Some 0 else None
      end
  end.

(** [Path::file_name]: the last component. *)
Definition file_name (p : PathBuf) : string :=
  match last_index slash p with
  | Some i => substring (S i) (String.length p) p
  | None => p
  end.

(** [Path::extension]: the part of the file name after its last dot; none
    for [".."], for a name without a dot, or one whose only dot leads. *)
Definition extension (p : PathBuf) : option string :=
  let n := file_name p in
  if String.eqb n ".." then None else
  match last_index dot n with
  | Some (S i) => Some (substring (S (S i)) (String.length n) n)
  | _ => None
  end.

Definition ascii_lower (c : Ascii.ascii) : Ascii.ascii :=
  let k := Ascii.nat_of_ascii c in
  if (65 <=? k)%nat && (k <=? 90)%nat then Ascii.ascii_of_nat (k + 32) else c.

(** [str::to_lowercase] on ASCII text. *)
Fixpoint to_lowercase (s : string) : string :=
  match s with
  | EmptyString => EmptyString
  | String c s' => String (ascii_lower c) (to_lowercase s')
  end.

(** [matches!(ext.to_lowercase().as_str(), "mp3" | "flac" | "ogg" | "wav")]. *)
Definition supported (ext : string) : bool :=
  let l := to_lowercase ext in
  String.eqb l "mp3" || String.eqb l "flac" || String.eqb l "ogg" || String.eqb l "wav".

Definition in_range (lo hi : nat) (c : Ascii.ascii) : bool :=
  (lo <=? Ascii.nat_of_ascii c)%nat && (Ascii.nat_of_ascii c <=? hi)%nat.

(** A UTF-8 continuation byte. *)
Definition cont (c : Ascii.ascii) : bool := in_range 128 191 c.

(** [OsStr::to_str] succeeds: the bytes are well-formed UTF-8 (no
    overlong forms, no surrogates, nothing above U+10FFFF). *)
Fixpoint utf8_valid (s : string) : bool :=
  match s with
  | EmptyString => true
  | String c r =>
      let b := Ascii.nat_of_ascii c in
      if (b <? 128)%nat then utf8_valid r
      else if (194 <=? b)%nat && (b <=? 223)%nat then
        match r with
        | String c1 r1 => cont c1 && utf8_valid r1
        | EmptyString => false
        end
      else if (224 <=? b)%nat && (b <=? 239)%nat then
        match r with
        | String c1 (String c2 r2) =>
            (if (b =? 224)%nat then in_range 160 191 c1
             else if (b =? 237)%nat then in_range 128 159 c1
             else cont c1) && cont c2 && utf8_valid r2
        | _ => false
        end
      else if (240 <=? b)%nat && (b <=? 244)%nat then
        match r with
        | String c1 (String c2 (String c3 r3)) =>
            (if (b =? 240)%nat then in_range 144 191 c1
             else if (b =? 244)%nat then in_range 128 143 c1
             else cont c1) && cont c2 && cont c3 && utf8_valid r3
        | _ => false
        end
      else false
  end.

(** [path.file_name().and_then(|s| s.to_str()).map(|s| s.to_string())]. *)
Definition title_of (p : PathBuf) : option string :=
  let n := file_name p in
  if utf8_valid n then Some n else None.

(** One iteration of the loop of [scan_directory] (main.rs lines 149-165). *)
Definition scan_step (out : list Track) (e : option DirEntry) : list Track :=
  match e with
  | None => out
  | Some en =>
      if negb (entry_is_file en) then out else
      (* path.extension().and_then(|e| e.to_str()) *)
      match extension (entry_path en) with
      | Some ext =>
          if utf8_valid ext && supported ext then
            (out ++ [mkTrack (N.of_nat (List.length out)) (entry_path en) None
                             (title_of (entry_path en))])%list
          else out
      | None => out
      end
  end.

(** [scan_directory] over the entries the walk yields. *)
Definition scan_directory (entries : list (option DirEntry)) : list Track :=
  fold_left scan_step entries [].

(** What [scan_directory] puts in the [i]-th track [t]. *)
Definition track_ok (i : nat) (t : Track) : Prop :=
  id t = N.of_nat i /\ duration t = None /\
  title t = (if utf8_valid (file_name (path t)) then Some (file_name (path t)) else None).

End Scan.

Module TimeFormat.
Local Open Scope N_scope.

Definition digit_char (d : nat) : Ascii.ascii := Ascii.ascii_of_nat (48 + d).

(** The decimal text of a [Decimal.uint]. *)
Fixpoint uint_to_string (u : Decimal.uint) : string :=
  match u with
  | Decimal.Nil => EmptyString
  | Decimal.D0 u' => String (digit_char 0) (uint_to_string u')
  | Decimal.D1 u' => String (digit_char 1) (uint_to_string u')
  | Decimal.D2 u' => String (digit_char 2) (uint_to_string u')
  | Decimal.D3 u' => String (digit_char 3) (uint_to_string u')
  | Decimal.D4 u' => String (digit_char 4) (uint_to_string u')
  | Decimal.D5 u' => String (digit_char 5) (uint_to_string u')
  | Decimal.D6 u' => String (digit_char 6) (uint_to_string u')
  | Decimal.D7 u' => String (digit_char 7) (uint_to_string u')
  | Decimal.D8 u' => String (digit_char 8) (uint_to_string u')
  | Decimal.D9 u' => String (digit_char 9) (uint_to_string u')
  end.

(** [format!("{:02}", n)]: the decimal digits, zero-padded to width 2. *)
Definition fmt02 (n : N) : string :=
  let s := uint_to_string (N.to_uint n) in
  (String.concat "" (repeat "0" (2 - String.length s)) ++ s)%string.

(** [PlaybackControlWidget::format_time] (widgets.rs lines 241-246), given
    [duration.as_secs()]. *)
Definition format_time (total_secs : N) : string :=
  let minutes := total_secs / 60 in
  let seconds := total_secs mod 60 in
  (fmt02 minutes ++ ":" ++ fmt02 seconds)%string.

(** Reading decimal text back. *)
Fixpoint string_to_uint (s : string) : option Decimal.uint :=
  match s with
  | EmptyString => Some Decimal.Nil
  | String c s' =>
      match string_to_uint s' with
      | None => None
      | Some u =>
          let k := Ascii.nat_of_ascii c in
          if (k =? 48)%nat then Some (Decimal.D0 u)
          else if (k =? 49)%nat then Some (Decimal.D1 u)
          else if (k =? 50)%nat then Some (Decimal.D2 u)
          else if (k =? 51)%nat then Some (Decimal.D3 u)
          else if (k =? 52)%nat then Some (Decimal.D4 u)
          else if (k =? 53)%nat then Some (Decimal.D5 u)
          else if (k =? 54)%nat then Some (Decimal.D6 u)
          else if (k =? 55)%nat then Some (Decimal.D7 u)
          else if (k =? 56)%nat then Some (Decimal.D8 u)
          else if (k =? 57)%nat then Some (Decimal.D9 u)
          else None
      end
  end.

Definition parse_dec (s : string) : option N :=
  match s with
  | EmptyString => None
  | _ => option_map N.of_uint (string_to_uint s)
  end.

End TimeFormat.

Module EngineSchedule.
Import Common Engine.

Definition time_of (i : Input) : Instant :=
  match i with Cmd t _ => t | Tick t _ => t end.

(** The instants of a schedule never go backwards, starting from [t]. *)
Fixpoint times_from (t : Instant) (ins : list Input) : Prop :=
  match ins with
  | [] => True
  | i :: rest => (t <= time_of i)%N /\ times_from (time_of i) rest
  end.

(** A loaded stream's clock is consistent with the instant [now]: while
    playing, it started no later than [now]; while paused, start plus the
    stored [paused_acc] is no later than [now]. *)
Definition clock_ok (now : Instant) (st : State) : Prop :=
  match sink st with
  | Some s =>
      forall t0, start_at st = Some t0 ->
        if sink_paused s then (t0 + paused_acc st <= now)%N else (t0 <= now)%N
  | None => True
  end.

Definition is_play (c : AppCommand) : bool :=
  match c with Play _ _ => true | _ => false end.

(** Inputs other than a [Play] command. *)
Definition no_play (i : Input) : bool :=
  match i with Cmd _ c => negb (is_play c) | Tick _ _ => true end.

(** An environment where every file opens and decodes to a 100-unit
    track. *)
Definition env_ok : Env := mkEnv (fun p => Some p) (fun _ => Some (mkSource (Some 100%N))).

End EngineSchedule.

Module ControllerInv.
Import Common Controller.

(** The selection points at a track. *)
Definition selection_ok (a : App) : Prop := (selected a < List.length (tracks a))%nat.

(** The playing index, when set, points at a track. *)
Definition playing_ok (a : App) : Prop :=
  match playing a with
  | Some i => (i < List.length (tracks a))%nat
  | None => True
  end.

(** An event from the engine that names a track names one of the [n]
    tracks. *)
Definition event_ok (n : nat) (e : AppEvent) : Prop :=
  match e with
  | TrackStarted i _ => (i < n)%nat
  | _ => True
  end.

(** A [Play] command that names track [i] of [ts] with that track's path. *)
Definition play_names_track (ts : list Track) (c : AppCommand) : Prop :=
  match c with
  | Play i p => exists t, nth_error ts i = Some t /\ p = path t
  | _ => True
  end.

End ControllerInv.

Module LayoutRegions.
Import Layout.
Local Open Scope N_scope.

(** [r] lies within [area]. *)
Definition inside (r area : Rect) : Prop :=
  x area <= x r /\ x r + width r <= x area + width area /\
  y area <= y r /\ y r + height r <= y area + height area.

(** The regions a frame is drawn into. *)
Definition regions (L : AppLayout) : list Rect :=
  [now_playing L; track_list L; playback_control L; status_bar L] ++
  match visualization L with Some v => [v] | None => [] end.

End LayoutRegions.

(* ================================================================== *)
(** * Lemmas *)

Module F32Facts.
Import F32.
Local Open Scope Z_scope.

Lemma cmp_antisym (a b : f32) : cmp a b = CompOpp (cmp b a).
Proof.
  unfold cmp, align; simpl.
  rewrite (Z.min_comm (f32_e b) (f32_e a)).
  apply Z.compare_antisym.
Qed.

Lemma cmp_refl (a : f32) : cmp a a = Eq.
Proof. unfold cmp, align; simpl. apply Z.compare_refl. Qed.

Lemma le_min_r (a b : f32) : le (min a b) b = true.
Proof.
  unfold min, lt, le.
  destruct (cmp b a) eqn:E.
  - rewrite cmp_antisym, E; reflexivity.
  - rewrite cmp_refl; reflexivity.
  - rewrite cmp_antisym, E; reflexivity.
Qed.

Lemma le_zero_max (a : f32) : le zero (max a zero) = true.
Proof.
  unfold max, lt, le.
  destruct (cmp a zero) eqn:E.
  - rewrite cmp_antisym, E; reflexivity.
  - rewrite cmp_refl; reflexivity.
  - rewrite cmp_antisym, E; reflexivity.
Qed.

End F32Facts.

Module ControllerFacts.
Import Common Controller.

Lemma key_plus (a : App) :
  handle_key a (KChar "+"%char) =
    Some (Continue (set_volume a (volume_up (volume a))) [SetVolume (volume_up (volume a))]).
Proof. reflexivity. Qed.

Lemma key_minus (a : App) :
  handle_key a (KChar "-"%char) =
    Some (Continue (set_volume a (volume_down (volume a))) [SetVolume (volume_down (volume a))]).
Proof. reflexivity. Qed.

Lemma press_plus_bounded (n : nat) : forall a,
  F32.le (volume a) F32.two = true ->
  match press_n a (KChar "+"%char) n with
  | Some a' => F32.le (volume a') F32.two = true
  | None => False
  end.
Proof.
  induction n as [|n IH]; intros a Ha; simpl.
  - exact Ha.
  - apply IH. apply F32Facts.le_min_r.
Qed.

Lemma press_minus_nonneg (n : nat) : forall a,
  F32.le F32.zero (volume a) = true ->
  match press_n a (KChar "-"%char) n with
  | Some a' => F32.le F32.zero (volume a') = true
  | None => False
  end.
Proof.
  induction n as [|n IH]; intros a Ha; simpl.
  - exact Ha.
  - apply IH. apply F32Facts.le_zero_max.
Qed.

Lemma press_n_add (a : App) (k : KeyCode) (m n : nat) :
  press_n a k (m + n) =
    match press_n a k m with Some a' => press_n a' k n | None => None end.
Proof.
  revert a. induction m as [|m IH]; intros a; simpl; [reflexivity|].
  destruct (handle_key a k) as [[|a1 c]|]; auto.
Qed.

(** At 2.0, ['+'] leaves the state as it is. *)
Lemma press_plus_at_two (j : nat) : forall a,
  volume a = F32.two -> press_n a (KChar "+"%char) j = Some a.
Proof.
  induction j as [|j IH]; intros a Ha; simpl; [reflexivity|].
  assert (E : volume_up (volume a) = F32.two) by (rewrite Ha; vm_compute; reflexivity).
  rewrite E. replace (set_volume a F32.two) with a; [apply IH; exact Ha|].
  destruct a; simpl in Ha; subst; reflexivity.
Qed.

End ControllerFacts.

Module LayoutFacts.
Import Layout.
Local Open Scope N_scope.

Lemma greedy_length (rs : list N) : forall rem, List.length (greedy rem rs) = List.length rs.
Proof. induction rs as [|r rs IH]; intros rem; simpl; [reflexivity | now rewrite IH]. Qed.

Lemma grow_length (e : N) (cs : list Constraint) : forall rs,
  List.length (grow_first_min e cs rs) = List.length rs.
Proof.
  induction cs as [|c cs IH]; intros [|r rs]; simpl; try reflexivity;
    destruct c; simpl; try reflexivity; now rewrite IH.
Qed.

Lemma sizes_length (total : N) (cs : list Constraint) :
  List.length (sizes total cs) = List.length cs.
Proof.
  unfold sizes. rewrite greedy_length.
  destruct (_ <=? _); [rewrite grow_length|]; apply length_map.
Qed.

Lemma greedy_sum (rs : list N) : forall rem, sum (greedy rem rs) <= rem.
Proof.
  induction rs as [|r rs IH]; intros rem; simpl; [lia|].
  specialize (IH (rem - N.min r rem)). lia.
Qed.

Lemma place_length (d : Direction) (area : Rect) (ss : list N) : forall pos,
  List.length (place d area pos ss) = List.length ss.
Proof. induction ss as [|s ss IH]; intros pos; simpl; [reflexivity | now rewrite IH]. Qed.

Lemma place_v_across (area : Rect) (ss : list N) : forall pos,
  Forall (fun r => x r = x area /\ width r = width area) (place Vertical area pos ss).
Proof. induction ss as [|s ss IH]; intros pos; simpl; constructor; auto. Qed.

Lemma place_h_across (area : Rect) (ss : list N) : forall pos,
  Forall (fun r => y r = y area /\ height r = height area) (place Horizontal area pos ss).
Proof. induction ss as [|s ss IH]; intros pos; simpl; constructor; auto. Qed.

Lemma place_v_chain (area : Rect) (ss : list N) : forall pos hi,
  pos + sum ss <= hi -> chain_v pos hi (place Vertical area pos ss).
Proof.
  induction ss as [|s ss IH]; intros pos hi H; simpl in *; [lia|].
  split; [lia|]. apply IH. lia.
Qed.

Lemma place_h_chain (area : Rect) (ss : list N) : forall pos hi,
  pos + sum ss <= hi -> chain_h pos hi (place Horizontal area pos ss).
Proof.
  induction ss as [|s ss IH]; intros pos hi H; simpl in *; [lia|].
  split; [lia|]. apply IH. lia.
Qed.

Lemma model_split_tiles : split_tiles model_split.
Proof.
  intros [|] cs area; unfold model_split;
    rewrite place_length, sizes_length; (split; [reflexivity|]); split.
  - apply place_v_across.
  - apply place_v_chain. unfold sizes.
    match goal with |- context [greedy ?t ?rs] => pose proof (greedy_sum rs t) end; lia.
  - apply place_h_across.
  - apply place_h_chain. unfold sizes.
    match goal with |- context [greedy ?t ?rs] => pose proof (greedy_sum rs t) end; lia.
Qed.

(** Equal lists of rectangles, field by field. *)
Ltac rect_list_eq :=
  repeat match goal with
         | |- (_ :: _) = (_ :: _) => f_equal
         | |- mkRect _ _ _ _ = mkRect _ _ _ _ => f_equal
         end; lia.

Lemma model_split_exact_fit : split_exact_fit model_split.
Proof.
  intros area a m b c H. unfold model_split, sizes, sum; cbn.
  replace (a + (m + (b + (c + 0))) <=? height area) with true
    by (symmetry; apply N.leb_le; lia).
  cbn. repeat rewrite N.min_l by lia.
  rect_list_eq.
Qed.

Lemma model_split_percent : split_percent model_split.
Proof.
  intros area p q Hpq.
  set (w := width area).
  assert (Hsum : p * w + q * w = 100 * w) by (rewrite <- N.mul_add_distr_r, Hpq; reflexivity).
  pose proof (N.div_mod (p * w + 50) 100 ltac:(lia)) as Dp.
  pose proof (N.mod_lt (p * w + 50) 100 ltac:(lia)) as Mp.
  pose proof (N.div_mod (q * w + 50) 100 ltac:(lia)) as Dq.
  pose proof (N.mod_lt (q * w + 50) 100 ltac:(lia)) as Mq.
  remember ((p * w + 50) / 100) as r1 eqn:E1.
  remember ((q * w + 50) / 100) as r2 eqn:E2.
  remember (p * w) as P eqn:EP. remember (q * w) as Q eqn:EQ.
  remember ((P + 50) mod 100) as m1. remember ((Q + 50) mod 100) as m2.
  assert (H1 : r1 <= w) by lia.
  assert (H12 : w <= r1 + r2) by lia.
  exists r1. split; [exact H1|]. split; [lia|]. split; [lia|].
  unfold model_split, sizes, sum; cbn.
  fold w. rewrite <- EP, <- EQ, <- E1, <- E2.
  destruct (r1 + (r2 + 0) <=? w); cbn;
    rewrite (N.min_l r1 w H1), (N.min_r r2 (w - r1)) by lia;
    rect_list_eq.
Qed.

End LayoutFacts.

Module LayoutFactsRev.
Import Layout LayoutFacts.
Local Open Scope N_scope.

Lemma sum_app (l1 l2 : list N) : sum (l1 ++ l2) = sum l1 + sum l2.
Proof. induction l1 as [|r l1 IH]; simpl; [reflexivity|]. unfold sum in *; simpl. lia. Qed.

Lemma sum_rev (l : list N) : sum (rev l) = sum l.
Proof.
  induction l as [|r l IH]; simpl; [reflexivity|].
  rewrite sum_app, IH. unfold sum; simpl. lia.
Qed.

Lemma model_split_rev_tiles : split_tiles model_split_rev.
Proof.
  intros [|] cs area.
  - unfold model_split_rev.
    rewrite place_length, length_rev, greedy_length, length_rev.
    split.
    { pose proof (sizes_length (height area) cs) as H.
      unfold sizes in H. rewrite greedy_length in H. exact H. }
    split; [apply place_v_across|].
    apply place_v_chain. rewrite sum_rev.
    match goal with |- context [greedy ?t ?rs] => pose proof (greedy_sum rs t) end; lia.
  - exact (model_split_tiles Horizontal cs area).
Qed.

Lemma model_split_rev_exact_fit : split_exact_fit model_split_rev.
Proof.
  intros area a m b c H. unfold model_split_rev, requests, sum; cbn.
  replace (a + (m + (b + (c + 0))) <=? height area) with true
    by (symmetry; apply N.leb_le; lia).
  cbn. repeat rewrite N.min_l by lia.
  rect_list_eq.
Qed.

Lemma model_split_rev_percent : split_percent model_split_rev.
Proof. exact model_split_percent. Qed.

Lemma model_split_rev_small_overflow : split_small_overflow model_split_rev.
Proof.
  intros area H10 H13. unfold model_split_rev, requests. cbn [map request].
  change (sum [3; 5; 4; 1]) with 13.
  replace (13 <=? height area) with false by (symmetry; apply N.leb_gt; lia).
  cbn [rev app greedy].
  rewrite (N.min_l 1 (height area)) by lia.
  rewrite (N.min_l 4 (height area - 1)) by lia.
  rewrite (N.min_l 5 (height area - 1 - 4)) by lia.
  rewrite (N.min_r 3 (height area - 1 - 4 - 5)) by lia.
  cbn. do 3 eexists. rect_list_eq.
Qed.

End LayoutFactsRev.

(* ================================================================== *)
(** * The claims *)

Module Claims.
Import Common.

(** A one-track list and the controller playing its only track. *)
Definition track_a : Track := mkTrack 0 "a.mp3" None None.
Definition track_b : Track := mkTrack 1 "b.mp3" None None.
Definition app_last_playing : Controller.App :=
  Controller.mkApp [track_a] 0 (Some 0) Playing 0%N None F32.one.

(** C1 (counterexample): with [playing = Some 0] on a one-track list, i.e.
    at the last index, [TrackEnded] does act: it selects index 0 again and
    sends [Play{index: 0}] for it, re-playing the last track. *)
Lemma C1_last_index_replays :
  Controller.handle_event app_last_playing TrackEnded =
    Some (app_last_playing, [Play 0 "a.mp3"]) /\
  [Play 0 "a.mp3"] <> [].
Proof. split; [reflexivity | discriminate]. Qed.

(** C1 (amended): on [TrackEnded] with [playing = Some i], [i] a valid
    index: if [i] is not the last index the controller selects [i+1] and
    sends [Play{index: i+1}] with that track's path; if [i] is the last
    index it keeps [selected = i] and sends [Play{index: i}] with the path
    of track [i] again (no wrap to 0, but the last track is re-played).
    Nothing else of the state changes. *)
Theorem C1_track_ended_advance (a : Controller.App) (i : nat)
  (Hp : Controller.playing a = Some i) (Hi : i < List.length (Controller.tracks a)) :
  (i + 1 < List.length (Controller.tracks a) ->
     exists t, nth_error (Controller.tracks a) (i + 1) = Some t /\
       Controller.handle_event a TrackEnded =
         Some (Controller.set_selected a (i + 1), [Play (i + 1) (path t)])) /\
  (i + 1 = List.length (Controller.tracks a) ->
     exists t, nth_error (Controller.tracks a) i = Some t /\
       Controller.handle_event a TrackEnded =
         Some (Controller.set_selected a i, [Play i (path t)])).
Proof.
  unfold Controller.handle_event, Controller.track_at. rewrite Hp.
  split; intros Hlen.
  - destruct (nth_error (Controller.tracks a) (i + 1)) as [t|] eqn:Ht.
    + exists t. split; [reflexivity|].
      apply Nat.ltb_lt in Hlen. rewrite Hlen. simpl. rewrite Ht. reflexivity.
    + apply nth_error_None in Ht. lia.
  - destruct (nth_error (Controller.tracks a) i) as [t|] eqn:Ht.
    + exists t. split; [reflexivity|].
      replace (Nat.ltb (i + 1) (List.length (Controller.tracks a))) with false
        by (symmetry; apply Nat.ltb_ge; lia).
      simpl. rewrite Ht. reflexivity.
    + apply nth_error_None in Ht. lia.
Qed.

(** Instance of [C1_track_ended_advance] on a two-track list. *)
Lemma C1_track_ended_advance_witness :
  (0 + 1 < 2 ->
     exists t, nth_error [track_a; track_b] (0 + 1) = Some t /\
       Controller.handle_event (Controller.mkApp [track_a; track_b] 0 (Some 0) Playing 0%N None F32.one) TrackEnded =
         Some (Controller.set_selected (Controller.mkApp [track_a; track_b] 0 (Some 0) Playing 0%N None F32.one) (0 + 1),
               [Play (0 + 1) (path t)])) /\
  (0 + 1 = 2 ->
     exists t, nth_error [track_a; track_b] 0 = Some t /\
       Controller.handle_event (Controller.mkApp [track_a; track_b] 0 (Some 0) Playing 0%N None F32.one) TrackEnded =
         Some (Controller.set_selected (Controller.mkApp [track_a; track_b] 0 (Some 0) Playing 0%N None F32.one) 0,
               [Play 0 (path t)])).
Proof.
  apply (C1_track_ended_advance (Controller.mkApp [track_a; track_b] 0 (Some 0) Playing 0%N None F32.one) 0);
    simpl; [reflexivity | lia].
Defined.

(** C2 (code defect): folding [TrackStarted{0}] and then [Error] from the
    initial state leaves [playing = Some 0] with [status = Stopped]: the
    [Error] arm sets [status] but never clears [playing]. *)
Theorem C2_error_keeps_playing :
  exists a cmds,
    Controller.drain (Controller.new [track_a])
      [TrackStarted 0 None; Error "无法打开文件: b.mp3"] = Some (a, cmds) /\
    Controller.playing a = Some 0 /\ Controller.status a = Stopped.
Proof. do 2 eexists. split; [reflexivity | split; reflexivity]. Qed.

(** C3 (code defect): with an empty track list, [Enter], [']'] and ['[']
    index [tracks[0]] and panic ([None]). *)
Theorem C3_empty_list_panics :
  Controller.handle_key (Controller.new []) Controller.KEnter = None /\
  Controller.handle_key (Controller.new []) (Controller.KChar "]"%char) = None /\
  Controller.handle_key (Controller.new []) (Controller.KChar "["%char) = None.
Proof. repeat split. Qed.

(** C5 (code defect): with no audio output device, [player::start] still
    returns [Ok(handle)] (the spawned thread panics on its own), so [run]
    carries on past [player::start(...)?] instead of aborting. *)
Theorem C5_start_ok_without_device :
  (exists msg, Engine.start false = Engine.Ok (Engine.mkJoinHandle (Engine.Panicked msg))) /\
  run_startup false = Engine.Ok tt.
Proof. split; [eexists; reflexivity | reflexivity]. Qed.

(** The f32 value 0.5. *)
Definition half : F32.f32 := F32.mk 1 (-1).

(** C10 (counterexample): ten '+' presses from 1.0 leave the volume
    strictly below 2.0, and ten '-' presses leave it strictly below 0.5. *)
Lemma C10_ten_presses :
  (exists a, Controller.press_n (Controller.new []) (Controller.KChar "+"%char) 10 = Some a /\
     F32.lt (Controller.volume a) F32.two = true) /\
  (exists a, Controller.press_n (Controller.new []) (Controller.KChar "-"%char) 10 = Some a /\
     F32.lt (Controller.volume a) half = true).
Proof. split; eexists; split; vm_compute; reflexivity. Qed.

(** C10 (amended): from volume 1.0, ten '+' presses give the binary32
    value 12582908 * 2^-23 (about 1.4999995); after [n] presses the
    volume is below 2.0 exactly when [n < 21], the 21st press giving 2.0;
    no number of '+' presses takes the volume above 2.0; ten '-' presses give
    16777212 * 2^-25 (about 0.49999988), and no number of '-' presses
    takes it below 0.0. *)
Theorem C10_volume_steps (ts : list Track) :
  Controller.press_n (Controller.new ts) (Controller.KChar "+"%char) 10 =
    Some (Controller.set_volume (Controller.new ts) (F32.mk 12582908 (-23))) /\
  Controller.press_n (Controller.new ts) (Controller.KChar "+"%char) 21 =
    Some (Controller.set_volume (Controller.new ts) F32.two) /\
  (forall n, match Controller.press_n (Controller.new ts) (Controller.KChar "+"%char) n with
             | Some a => F32.lt (Controller.volume a) F32.two = Nat.ltb n 21
             | None => False
             end) /\
  (forall n, match Controller.press_n (Controller.new ts) (Controller.KChar "+"%char) n with
             | Some a => F32.le (Controller.volume a) F32.two = true
             | None => False
             end) /\
  Controller.press_n (Controller.new ts) (Controller.KChar "-"%char) 10 =
    Some (Controller.set_volume (Controller.new ts) (F32.mk 16777212 (-25))) /\
  (forall n, match Controller.press_n (Controller.new ts) (Controller.KChar "-"%char) n with
             | Some a => F32.le F32.zero (Controller.volume a) = true
             | None => False
             end).
Proof.
  split; [vm_compute; reflexivity|].
  split; [vm_compute; reflexivity|].
  split.
  { intros n. destruct (Nat.lt_ge_cases n 21) as [Hn|Hn].
    - assert (Hc : forallb (fun n =>
                match Controller.press_n (Controller.new ts) (Controller.KChar "+"%char) n with
                | Some a => Bool.eqb (F32.lt (Controller.volume a) F32.two) (Nat.ltb n 21)
                | None => false
                end) (seq 0 21) = true) by (vm_compute; reflexivity).
      rewrite forallb_forall in Hc.
      specialize (Hc n ltac:(apply in_seq; lia)).
      destruct (Controller.press_n _ _ n); [|discriminate].
      apply Bool.eqb_prop in Hc. exact Hc.
    - replace n with (21 + (n - 21))%nat by lia.
      rewrite ControllerFacts.press_n_add.
      replace (Controller.press_n (Controller.new ts) (Controller.KChar "+"%char) 21)
        with (Some (Controller.set_volume (Controller.new ts) F32.two)) by (vm_compute; reflexivity).
      rewrite ControllerFacts.press_plus_at_two by reflexivity.
      replace (Nat.ltb (21 + (n - 21)) 21) with false by (symmetry; apply Nat.ltb_ge; lia).
      reflexivity. }
  split; [intros n; apply ControllerFacts.press_plus_bounded; reflexivity|].
  split; [vm_compute; reflexivity|].
  intros n; apply ControllerFacts.press_minus_nonneg; reflexivity.
Qed.

(** A file system holding one decodable file, "a.mp3". *)
Definition env_a : Engine.Env :=
  Engine.mkEnv (fun p => if String.eqb p "a.mp3" then Some "ID3" else None)
               (fun _ => Some (Engine.mkSource None)).

(** C4 (code defect): play "a.mp3" at t=0, pause at t=10, resume at t=15.
    While paused (t=12) the engine reports position 12, which includes the
    2 units spent paused; right after resuming (t=15) it reports 5, while
    wall-clock time since the start minus the paused time is 15 - 5 = 10.
    The resume arm sets [start_at] to [now - (elapsed - paused_acc)], where
    [paused_acc] holds the elapsed time at the pause. *)
Theorem C4_resume_progress :
  exists st,
    Engine.run env_a Engine.init
      [Engine.Cmd 0%N (Play 0 "a.mp3"); Engine.Cmd 10%N TogglePlayPause;
       Engine.Tick 12%N false; Engine.Cmd 15%N TogglePlayPause; Engine.Tick 15%N false] =
    Some (st, [TrackStarted 0 None; Progress 12%N; Progress 5%N]).
Proof. eexists. vm_compute. reflexivity. Qed.

(** C6: a [Play] whose path cannot be opened, or whose file cannot be
    decoded, emits exactly one [Error] and nothing else, leaves no stream
    loaded, after which the periodic check emits nothing (no [Progress],
    no [TrackEnded]), and a following [Play] of a decodable file starts it
    normally. *)
Theorem C6_play_unreadable (env : Engine.Env) (now : Instant) (st : Engine.State)
  (index : nat) (p : PathBuf)
  (Hbad : Engine.open_file env p = None \/
          exists f, Engine.open_file env p = Some f /\ Engine.decode env f = None) :
  exists msg st',
    Engine.exec_cmd env now st (Play index p) = Some (st', [Error msg]) /\
    Engine.sink st' = None /\
    (forall now' empty, Engine.tick now' empty st' = (st', [])) /\
    (forall index' q f src now',
       Engine.open_file env q = Some f -> Engine.decode env f = Some src ->
       exists st'', Engine.exec_cmd env now' st' (Play index' q) =
                    Some (st'', [TrackStarted index' (Engine.total_duration src)])).
Proof.
  assert (Hnext : forall st1 : Engine.State, Engine.sink st1 = None ->
    (forall now' empty, Engine.tick now' empty st1 = (st1, [])) /\
    (forall index' q f src now',
       Engine.open_file env q = Some f -> Engine.decode env f = Some src ->
       exists st'', Engine.exec_cmd env now' st1 (Play index' q) =
                    Some (st'', [TrackStarted index' (Engine.total_duration src)]))).
  { intros st1 Hs. split.
    - intros now' empty. unfold Engine.tick. rewrite Hs. reflexivity.
    - intros index' q f src now' Hf Hd. simpl. rewrite Hf, Hd. eexists. reflexivity. }
  destruct Hbad as [Hopen | [f [Hopen Hdec]]]; simpl; rewrite Hopen; [|rewrite Hdec];
    do 2 eexists; (split; [reflexivity|]); (split; [reflexivity|]); apply Hnext; reflexivity.
Qed.

(** Instance of [C6_play_unreadable]: "missing.mp3" does not exist. *)
Lemma C6_play_unreadable_witness :
  exists msg st',
    Engine.exec_cmd env_a 7%N Engine.init (Play 3 "missing.mp3") = Some (st', [Error msg]) /\
    Engine.sink st' = None /\
    (forall now' empty, Engine.tick now' empty st' = (st', [])) /\
    (forall index' q f src now',
       Engine.open_file env_a q = Some f -> Engine.decode env_a f = Some src ->
       exists st'', Engine.exec_cmd env_a now' st' (Play index' q) =
                    Some (st'', [TrackStarted index' (Engine.total_duration src)])).
Proof.
  apply (C6_play_unreadable env_a 7%N Engine.init 3 "missing.mp3").
  left. reflexivity.
Defined.

End Claims.

Module LayoutClaims.
Import Layout.
Local Open Scope N_scope.

(** Split the [Layout::split] call of direction [d] in the goal into its
    segments, using the guarantees [Ht]. *)
Ltac open_split Ht d :=
  match goal with
  | |- context [?split d ?cs ?a] =>
      let Hlen := fresh "Hlen" in
      let Hall := fresh "Hall" in
      let Hch := fresh "Hch" in
      destruct (Ht d cs a) as [Hlen [Hall Hch]];
      destruct (split d cs a) as [|? [|? [|? [|? [|? ?]]]]];
      simpl in Hlen; try discriminate;
      repeat rewrite Forall_cons_iff in Hall; simpl in Hch
  end.

(** The four bands, top to bottom, one after the other, inside [h]. *)
Definition bands_stacked (L : AppLayout) (h : N) : Prop :=
  y (now_playing L) + height (now_playing L) <= y (track_list L) /\
  y (track_list L) + height (track_list L) <= y (playback_control L) /\
  y (playback_control L) + height (playback_control L) <= y (status_bar L) /\
  y (status_bar L) + height (status_bar L) <= h /\
  height (now_playing L) + height (track_list L) +
    height (playback_control L) + height (status_bar L) <= h.

(** C7: for every terminal of width at least 20 and height at least 10,
    the now-playing, track-list (middle), playback-control and status-bar
    bands are ordered top to bottom, each ending before the next begins
    (so they are pairwise non-overlapping), and their heights sum to at
    most the terminal height; this holds for any [Layout::split] that
    keeps its segments in order inside the area. *)
Theorem C7_bands_stacked (split : Direction -> list Constraint -> Rect -> list Rect)
  (Ht : split_tiles split) (w h : N) (Hw : 20 <= w) (Hh : 10 <= h) :
  exists L, calculate_layout split (terminal w h) = Some L /\ bands_stacked L h.
Proof.
  unfold calculate_layout, bands_stacked, terminal; cbn zeta.
  open_split Ht Vertical. cbn [nth_error].
  destruct (is_compact_mode _).
  - eexists. split; [reflexivity|]. cbn. lia.
  - open_split Ht Horizontal. cbn [nth_error].
    eexists. split; [reflexivity|]. cbn. lia.
Qed.

(** Instance of [C7_bands_stacked] with the model solver, 100 x 30. *)
Lemma C7_bands_stacked_witness :
  exists L, calculate_layout model_split (terminal 100 30) = Some L /\ bands_stacked L 30.
Proof.
  apply (C7_bands_stacked model_split LayoutFacts.model_split_tiles 100 30); lia.
Defined.

(** At height 0 every band is empty, whatever the solver, as long as it
    keeps its segments inside the area. *)
Lemma zero_height_status (split : Direction -> list Constraint -> Rect -> list Rect)
  (Ht : split_tiles split) (w : N) (L : AppLayout) :
  calculate_layout split (terminal w 0) = Some L -> height (status_bar L) = 0.
Proof.
  unfold calculate_layout, terminal; cbn zeta.
  open_split Ht Vertical. cbn [nth_error].
  destruct (is_compact_mode _).
  - intros E. injection E as <-. cbn. lia.
  - open_split Ht Horizontal; cbn [nth_error]; intros E; injection E as <-; cbn; lia.
Qed.

(** C8 (counterexample): a terminal of height 0 gets a status bar of
    height 0, not 1. *)
Lemma C8_zero_height :
  exists L, calculate_layout model_split (terminal 80 0) = Some L /\
    height (status_bar L) <> 1.
Proof. eexists. split; [reflexivity | cbn; discriminate]. Qed.

(** The status bar is one row high and ends at the bottom edge. *)
Definition status_at_bottom (L : AppLayout) (h : N) : Prop :=
  height (status_bar L) = 1 /\ y (status_bar L) + height (status_bar L) = h.

(** C8 (amended): for every terminal of height at least 10 (the smallest
    height the repository's test [prop_status_bar_at_bottom] checks), the
    status bar has height exactly 1 and its bottom edge is the terminal
    height.  From height 13 the fixed bands and the 5-row minimum fit and
    are met exactly; at heights 10 to 12 the rows overflow and the solver
    keeps the final row at the bottom ([split_small_overflow]). *)
Theorem C8_status_bar_bottom (split : Direction -> list Constraint -> Rect -> list Rect)
  (Ht : split_tiles split) (He : split_exact_fit split) (Ho : split_small_overflow split)
  (w h : N) (Hh : 10 <= h) :
  exists L, calculate_layout split (terminal w h) = Some L /\ status_at_bottom L h.
Proof.
  unfold calculate_layout, status_at_bottom; cbn zeta.
  change (height (terminal w h)) with h.
  destruct (N.lt_ge_cases h 13) as [H13|H13].
  - replace (h <? 20) with true by (symmetry; apply N.ltb_lt; lia).
    destruct (Ho (terminal w h) Hh H13) as [r0 [r1 [r2 E]]].
    rewrite E. cbn [nth_error].
    destruct (is_compact_mode _).
    + eexists; split; [reflexivity|]. cbn. lia.
    + open_split Ht Horizontal; cbn [nth_error].
      eexists; split; [reflexivity|]. cbn. lia.
  - unfold terminal in *.
    destruct (h <? 20) eqn:H20;
      [apply N.ltb_lt in H20 | apply N.ltb_ge in H20];
      rewrite He by (cbn; lia); cbn [nth_error];
      (destruct (is_compact_mode _);
       [ eexists; split; [reflexivity|]; cbn; lia
       | open_split Ht Horizontal; cbn [nth_error];
         eexists; split; [reflexivity|]; cbn; lia ]).
Qed.

(** Instance of [C8_status_bar_bottom] with the solver that shrinks the
    earliest rows first, 100 x 10. *)
Lemma C8_status_bar_bottom_witness :
  exists L, calculate_layout model_split_rev (terminal 100 10) = Some L /\ status_at_bottom L 10.
Proof.
  apply (C8_status_bar_bottom model_split_rev LayoutFactsRev.model_split_rev_tiles
           LayoutFactsRev.model_split_rev_exact_fit LayoutFactsRev.model_split_rev_small_overflow
           100 10); lia.
Defined.

(** The constraints of the vertical split for a terminal of height [h]. *)
Definition vertical_constraints (h : N) : list Constraint :=
  [Length (if h <? 20 then 3 else 5); Min 5; Length (if h <? 20 then 4 else 5); Length 1].

(** Track list and visualization share the middle width [w], the track
    list taking between 50% and 60% of it and the visualization between 40%
    and 50%. *)
Definition ratio_ok (tl vz : Rect) (w : N) : Prop :=
  width tl + width vz = w /\
  50 * (width tl + width vz) <= 100 * width tl /\
  100 * width tl <= 60 * (width tl + width vz) /\
  40 * (width tl + width vz) <= 100 * width vz /\
  100 * width vz <= 50 * (width tl + width vz).

(** C9: for width at least 80 a visualization region is produced and the
    middle band (of width [w]) is shared between track list and
    visualization in the ratios [0.50, 0.60] and [0.40, 0.50]; for width
    below 80 there is no visualization and the track list is the whole
    middle band. *)
Theorem C9_middle_split (split : Direction -> list Constraint -> Rect -> list Rect)
  (Ht : split_tiles split) (Hp : split_percent split) (w h : N) :
  (80 <= w ->
     exists L vz, calculate_layout split (terminal w h) = Some L /\
       visualization L = Some vz /\ ratio_ok (track_list L) vz w) /\
  (w < 80 ->
     exists L, calculate_layout split (terminal w h) = Some L /\
       visualization L = None /\
       nth_error (split Vertical (vertical_constraints h) (terminal w h)) 1 = Some (track_list L)).
Proof.
  unfold calculate_layout, ratio_ok, vertical_constraints, is_compact_mode; cbn zeta.
  change (height (terminal w h)) with h. change (width (terminal w h)) with w.
  open_split Ht Vertical. cbn [nth_error].
  destruct Hall as [_ [[_ Hmid] _]]. cbn in Hmid.
  split; intros Hw.
  - replace (w <? 80) with false by (symmetry; apply N.ltb_ge; lia).
    match goal with
    | |- context [split Horizontal _ ?mid] =>
        destruct (Hp mid 55 45 eq_refl) as [w1 [Hw1 [Hlo [Hhi Heq]]]]
    end.
    rewrite Heq. cbn [nth_error].
    do 2 eexists. split; [reflexivity|]. split; [reflexivity|].
    cbn [track_list width]. rewrite Hmid in *. lia.
  - replace (w <? 80) with true by (symmetry; apply N.ltb_lt; lia).
    eexists. split; [reflexivity|]. split; reflexivity.
Qed.

(** Instance of [C9_middle_split] with the model solver, width 100 and
    height 30. *)
Lemma C9_middle_split_witness :
  (80 <= 100 ->
     exists L vz, calculate_layout model_split (terminal 100 30) = Some L /\
       visualization L = Some vz /\ ratio_ok (track_list L) vz 100) /\
  (100 < 80 ->
     exists L, calculate_layout model_split (terminal 100 30) = Some L /\
       visualization L = None /\
       nth_error (model_split Vertical (vertical_constraints 30) (terminal 100 30)) 1 =
         Some (track_list L)).
Proof.
  apply (C9_middle_split model_split LayoutFacts.model_split_tiles
           LayoutFacts.model_split_percent 100 30).
Defined.

End LayoutClaims.

(* ================================================================== *)
(** * Further properties of the volume arithmetic *)

Module F32Extras.
Import F32.
Local Open Scope Z_scope.

Ltac fsimpl := cbn [zero two c0_05 f32_m f32_e] in *.

(** [le] compares the two values brought to any common exponent [k] below
    both exponents. *)
Lemma le_at (u v : f32) (k : Z) :
  k <= f32_e u -> k <= f32_e v ->
  (le u v = true <-> f32_m u * 2 ^ (f32_e u - k) <= f32_m v * 2 ^ (f32_e v - k)).
Proof.
  intros Hu Hv.
  set (e := Z.min (f32_e u) (f32_e v)).
  assert (Hk : k <= e) by (unfold e; lia).
  assert (Eu : 2 ^ (f32_e u - k) = 2 ^ (f32_e u - e) * 2 ^ (e - k))
    by (rewrite <- Z.pow_add_r; [f_equal; lia | unfold e; lia | lia]).
  assert (Ev : 2 ^ (f32_e v - k) = 2 ^ (f32_e v - e) * 2 ^ (e - k))
    by (rewrite <- Z.pow_add_r; [f_equal; lia | unfold e; lia | lia]).
  assert (Hd : 0 < 2 ^ (e - k)) by (apply Z.pow_pos_nonneg; lia).
  rewrite Eu, Ev, !Z.mul_assoc.
  unfold le, cmp, align. fold e.
  rewrite <- Z.mul_le_mono_pos_r by exact Hd.
  destruct (Z.compare_spec (f32_m u * 2 ^ (f32_e u - e)) (f32_m v * 2 ^ (f32_e v - e)));
    split; intros; try lia; discriminate.
Qed.

(** A value is at least [0.0] exactly when its mantissa is nonnegative. *)
Lemma le_zero_iff (u : f32) : le zero u = true <-> 0 <= f32_m u.
Proof.
  rewrite (le_at zero u (Z.min 0 (f32_e u))) by (fsimpl; lia).
  fsimpl. assert (H : 0 < 2 ^ (f32_e u - Z.min 0 (f32_e u)))
    by (apply Z.pow_pos_nonneg; lia).
  split; intros; nia.
Qed.

(** A value with a nonpositive mantissa is at most [2.0]. *)
Lemma le_two_of_nonpos (u : f32) : f32_m u <= 0 -> le u two = true.
Proof.
  intros Hm.
  rewrite (le_at u two (Z.min (f32_e u) 1)) by (fsimpl; lia).
  fsimpl. assert (H1 : 0 < 2 ^ (f32_e u - Z.min (f32_e u) 1))
    by (apply Z.pow_pos_nonneg; lia).
  assert (H2 : 0 < 2 ^ (1 - Z.min (f32_e u) 1)) by (apply Z.pow_pos_nonneg; lia).
  assert (f32_m u * 2 ^ (f32_e u - Z.min (f32_e u) 1) <= 0)
    by (apply Z.mul_nonpos_nonneg; lia).
  lia.
Qed.

(** Rounding keeps a nonnegative value nonnegative. *)
Lemma round32_nonneg (m e : Z) : 0 <= m -> 0 <= f32_m (round32 m e).
Proof.
  intros Hm. unfold round32.
  destruct (Z.eqb m 0); [simpl; lia|].
  destruct (Z.leb _ 0); simpl; [lia|].
  set (q := Z.shiftr (Z.abs m) _).
  assert (Hq : 0 <= q) by (apply Z.shiftr_nonneg; lia).
  destruct (_ || _); nia.
Qed.

(** Rounding never takes a value at most [2.0] above [2.0]: [2.0] is
    representable and rounding to nearest is monotone. *)
Lemma round32_le_two (m e : Z) : le (mk m e) two = true -> le (round32 m e) two = true.
Proof.
  intros H. unfold round32.
  destruct (Z.eqb m 0) eqn:E0; [reflexivity|].
  apply Z.eqb_neq in E0.
  set (s := Z.max (Z.log2 (Z.abs m) + 1 - 24) (-149 - e)).
  destruct (Z.leb s 0) eqn:Es; [exact H|].
  apply Z.leb_gt in Es.
  destruct (Z_lt_le_dec m 0) as [Hneg|Hpos].
  { apply le_two_of_nonpos. cbn [f32_m].
    set (q := Z.shiftr (Z.abs m) s).
    assert (Hq : 0 <= q) by (apply Z.shiftr_nonneg; lia).
    rewrite Z.sgn_neg by exact Hneg. destruct (_ || _); lia. }
  assert (Hm : 0 < m) by lia.
  rewrite Z.abs_eq in * by lia. rewrite Z.sgn_pos by exact Hm.
  set (k := Z.min e 1).
  apply (le_at _ _ k) in H; fsimpl; [|unfold k; lia|unfold k; lia].
  apply (le_at _ _ k); fsimpl; [unfold k; lia|unfold k; lia|].
  set (A := e - k) in *. set (B := 1 - k) in *.
  assert (HA : 0 <= A) by (unfold A, k; lia).
  assert (HB : 0 <= B) by (unfold B, k; lia).
  (* e + s <= 1 *)
  assert (Hes : e + s <= 1).
  { unfold s. rewrite (Z.abs_eq m) by lia. destruct (Z.max_spec (Z.log2 m + 1 - 24) (-149 - e)) as [[Hl Hs]|[Hl Hs]];
      rewrite Hs; [lia|].
    assert (Hlog : 2 ^ Z.log2 m <= m) by (apply Z.log2_spec; lia).
    assert (Hp : 2 ^ (Z.log2 m + A) <= 2 ^ B).
    { rewrite Z.pow_add_r by (try apply Z.log2_nonneg; lia).
      assert (0 < 2 ^ A) by (apply Z.pow_pos_nonneg; lia). nia. }
    apply Z.pow_le_mono_r_iff in Hp; [|lia|]; [|pose proof (Z.log2_nonneg m); lia].
    unfold A, B in Hp. lia. }
  set (K := 1 - e - s).
  assert (HK : 0 <= K) by (unfold K; lia).
  assert (PA : 0 < 2 ^ A) by (apply Z.pow_pos_nonneg; lia).
  assert (PS : 0 < 2 ^ s) by (apply Z.pow_pos_nonneg; lia).
  assert (PK : 0 < 2 ^ K) by (apply Z.pow_pos_nonneg; lia).
  assert (EB : 2 ^ B = 2 ^ K * 2 ^ s * 2 ^ A).
  { rewrite <- !Z.pow_add_r by lia. f_equal. unfold K, A, B. lia. }
  assert (ER : 2 ^ (e + s - k) = 2 ^ s * 2 ^ A).
  { rewrite <- Z.pow_add_r by lia. f_equal. unfold A. lia. }
  rewrite EB in H. rewrite ER. fold B. rewrite EB.
  assert (Hle : m <= 2 ^ K * 2 ^ s) by nia.
  rewrite Z.shiftr_div_pow2 by lia. rewrite !Z.shiftl_mul_pow2 by lia.
  rewrite !Z.mul_1_l.
  assert (Hh : 2 ^ s = 2 * 2 ^ (s - 1)).
  { rewrite <- (Z.pow_1_r 2) at 2. rewrite <- Z.pow_add_r by lia. f_equal; lia. }
  assert (Hh1 : 1 <= 2 ^ (s - 1)) by (pose proof (Z.pow_pos_nonneg 2 (s - 1)); lia).
  pose proof (Z.div_mod m (2 ^ s) ltac:(lia)) as Hdm.
  pose proof (Z.mod_pos_bound m (2 ^ s) PS) as Hr.
  set (q := m / 2 ^ s) in *. set (r := m mod 2 ^ s) in *.
  assert (Er : m - q * 2 ^ s = r) by lia. rewrite Er.
  destruct (Z.eq_dec r 0) as [Hr0|Hr0].
  - rewrite Hr0.
    replace (Z.ltb (2 ^ (s - 1)) 0) with false by (symmetry; apply Z.ltb_ge; lia).
    replace (Z.eqb 0 (2 ^ (s - 1))) with false by (symmetry; apply Z.eqb_neq; lia).
    simpl. nia.
  - assert (Hq : q < 2 ^ K) by nia.
    destruct (_ || _); nia.
Qed.

Lemma add_c0_05_nonneg (u : f32) : le zero u = true -> le zero (add u c0_05) = true.
Proof.
  rewrite !le_zero_iff. intros Hu. unfold add, align. fsimpl.
  apply round32_nonneg.
  assert (0 < 2 ^ (f32_e u - Z.min (f32_e u) (-28))) by (apply Z.pow_pos_nonneg; lia).
  assert (0 < 2 ^ (-28 - Z.min (f32_e u) (-28))) by (apply Z.pow_pos_nonneg; lia).
  nia.
Qed.

Lemma sub_c0_05_le_two (u : f32) : le u two = true -> le (sub u c0_05) two = true.
Proof.
  intros Hu. unfold sub, align. fsimpl.
  apply round32_le_two.
  set (e := Z.min (f32_e u) (-28)).
  apply (le_at _ _ e) in Hu; fsimpl; [|unfold e; lia|unfold e; lia].
  apply (le_at _ _ e); fsimpl; [lia|unfold e; lia|].
  assert (0 < 2 ^ (-28 - e)) by (apply Z.pow_pos_nonneg; unfold e; lia).
  rewrite Z.sub_diag, Z.pow_0_r. nia.
Qed.

End F32Extras.

(* ================================================================== *)
(** * Further properties of the controller *)

Module ControllerExtras.
Import Common Controller ControllerInv.

Lemma nth_error_lt {A} (l : list A) (i : nat) :
  (i < List.length l)%nat -> exists t, nth_error l i = Some t.
Proof.
  intros H. destruct (nth_error l i) eqn:E; [eauto|].
  apply nth_error_None in E. lia.
Qed.

Lemma play_at_ok (a : App) (i : nat) :
  (i < List.length (tracks a))%nat ->
  exists t, nth_error (tracks a) i = Some t /\
            play_at a i = Some (Continue (set_selected a i) [Play i (path t)]).
Proof.
  intros H. destruct (nth_error_lt _ _ H) as [t Ht].
  exists t. split; [exact Ht|]. unfold play_at, track_at. simpl. rewrite Ht. reflexivity.
Qed.

Lemma key_down_ok (a : App) :
  selection_ok a ->
  tracks (key_down a) = tracks a /\ selection_ok (key_down a) /\
  playing (key_down a) = playing a /\ status (key_down a) = status a.
Proof.
  unfold selection_ok, key_down. intros H.
  destruct (Nat.ltb (selected a + 1) (List.length (tracks a))) eqn:E; simpl;
    [apply Nat.ltb_lt in E|]; repeat split; auto; lia.
Qed.

Lemma key_up_ok (a : App) :
  selection_ok a ->
  tracks (key_up a) = tracks a /\ selection_ok (key_up a) /\
  playing (key_up a) = playing a /\ status (key_up a) = status a.
Proof.
  unfold selection_ok, key_up. intros H.
  destruct (Nat.ltb 0 (selected a)) eqn:E; simpl; repeat split; auto; lia.
Qed.

(** X1: with the selection on a track, no key press panics; a key press
    leaves the track list, the playing index and the status unchanged and
    keeps the selection on a track. *)
Theorem handle_key_safe (a : App) (k : KeyCode) (Hs : selection_ok a) :
  match handle_key a k with
  | Some Quit => True
  | Some (Continue a' _) =>
      tracks a' = tracks a /\ selection_ok a' /\
      playing a' = playing a /\ status a' = status a
  | None => False
  end.
Proof.
  pose proof (key_down_ok a Hs) as Hd. pose proof (key_up_ok a Hs) as Hu.
  unfold selection_ok in *.
  destruct k as [c| | | |]; simpl; auto.
  - destruct (Ascii.eqb c "q"%char); auto.
    destruct (Ascii.eqb c "j"%char); auto.
    destruct (Ascii.eqb c "k"%char); auto.
    destruct (Ascii.eqb c " "%char); auto.
    destruct (Ascii.eqb c "]"%char).
    { set (i := if Nat.ltb (selected a + 1) (List.length (tracks a)) then selected a + 1
                else selected a).
      assert (Hi : (i < List.length (tracks a))%nat).
      { unfold i. destruct (Nat.ltb (selected a + 1) _) eqn:E;
          [apply Nat.ltb_lt in E|]; lia. }
      destruct (play_at_ok a i Hi) as [t [_ ->]]. simpl. auto. }
    destruct (Ascii.eqb c "["%char).
    { set (i := if Nat.ltb 0 (selected a) then selected a - 1 else 0).
      assert (Hi : (i < List.length (tracks a))%nat).
      { unfold i. destruct (Nat.ltb 0 (selected a)); lia. }
      destruct (play_at_ok a i Hi) as [t [_ ->]]. simpl. auto. }
    destruct (Ascii.eqb c "+"%char); [simpl; auto|].
    destruct (Ascii.eqb c "-"%char); simpl; auto.
  - unfold track_at. destruct (nth_error_lt _ _ Hs) as [t ->]. auto.
Qed.

(** Instance of [handle_key_safe]: Enter on the first of two tracks. *)
Lemma handle_key_safe_witness :
  selection_ok (new [mkTrack 0 "a.mp3" None None; mkTrack 1 "b.mp3" None None]) /\
  match handle_key (new [mkTrack 0 "a.mp3" None None; mkTrack 1 "b.mp3" None None]) KEnter with
  | Some Quit => True
  | Some (Continue a' _) =>
      tracks a' = [mkTrack 0 "a.mp3" None None; mkTrack 1 "b.mp3" None None] /\
      selection_ok a' /\ playing a' = None /\ status a' = Stopped
  | None => False
  end.
Proof.
  assert (H : selection_ok (new [mkTrack 0 "a.mp3" None None; mkTrack 1 "b.mp3" None None]))
    by (unfold selection_ok; simpl; lia).
  split; [exact H|].
  exact (handle_key_safe _ KEnter H).
Defined.


(** X2: every command a key press sends that plays a track ([Play i p])
    names an index [i] of the track list together with that track's
    path. *)
Theorem handle_key_play_names_track (a a' : App) (k : KeyCode) (cmds : list AppCommand)
  (H : handle_key a k = Some (Continue a' cmds)) :
  Forall (play_names_track (tracks a)) cmds.
Proof.
  assert (Hp : forall i o, play_at a i = Some o ->
            match o with Continue _ cs => Forall (play_names_track (tracks a)) cs | Quit => True end).
  { intros i o. unfold play_at, track_at. simpl.
    destruct (nth_error (tracks a) i) as [t|] eqn:E; [|discriminate].
    intros Ho; inversion Ho; subst. repeat constructor. simpl. eauto. }
  destruct k as [c| | | |]; simpl in H.
  - destruct (Ascii.eqb c "q"%char); [discriminate|].
    destruct (Ascii.eqb c "j"%char); [inversion H; auto|].
    destruct (Ascii.eqb c "k"%char); [inversion H; auto|].
    destruct (Ascii.eqb c " "%char); [inversion H; repeat constructor|].
    destruct (Ascii.eqb c "]"%char); [exact (Hp _ _ H)|].
    destruct (Ascii.eqb c "["%char); [exact (Hp _ _ H)|].
    destruct (Ascii.eqb c "+"%char); [inversion H; repeat constructor|].
    destruct (Ascii.eqb c "-"%char); inversion H; repeat constructor.
  - inversion H; auto.
  - inversion H; auto.
  - unfold track_at in H. destruct (nth_error (tracks a) (selected a)) as [t|] eqn:E;
      [|discriminate].
    inversion H; subst. repeat constructor. simpl. eauto.
  - inversion H; auto.
Qed.

(** Instance of [handle_key_play_names_track]: [']'] on the first of two
    tracks. *)
Lemma handle_key_play_names_track_witness :
  handle_key (new [mkTrack 0 "a.mp3" None None; mkTrack 1 "b.mp3" None None]) (KChar "]"%char)
    = Some (Continue (set_selected (new [mkTrack 0 "a.mp3" None None; mkTrack 1 "b.mp3" None None]) 1)
                     [Play 1 "b.mp3"]) /\
  Forall (play_names_track [mkTrack 0 "a.mp3" None None; mkTrack 1 "b.mp3" None None])
         [Play 1 "b.mp3"].
Proof.
  split; [reflexivity|].
  exact (handle_key_play_names_track
           (new [mkTrack 0 "a.mp3" None None; mkTrack 1 "b.mp3" None None]) _ (KChar "]"%char) _
           eq_refl).
Defined.

Lemma handle_event_inv (a : App) (e : AppEvent) :
  selection_ok a -> playing_ok a -> event_ok (List.length (tracks a)) e ->
  exists a' cmds, handle_event a e = Some (a', cmds) /\
    tracks a' = tracks a /\ selection_ok a' /\ playing_ok a' /\
    Forall (play_names_track (tracks a)) cmds.
Proof.
  unfold selection_ok, playing_ok, event_ok. intros Hs Hp He.
  destruct e as [i d|p| |msg]; simpl.
  - eexists _, _. split; [reflexivity|]. simpl. auto.
  - eexists _, _. split; [reflexivity|]. simpl. auto.
  - destruct (playing a) as [i|] eqn:Ep.
    + set (next := if Nat.ltb (i + 1) (List.length (tracks a)) then i + 1 else i).
      assert (Hn : (next < List.length (tracks a))%nat).
      { unfold next. destruct (Nat.ltb (i + 1) _) eqn:E; [apply Nat.ltb_lt in E|]; lia. }
      unfold track_at. simpl.
      destruct (nth_error_lt _ _ Hn) as [t Ht]. rewrite Ht.
      eexists _, _. split; [reflexivity|]. simpl. rewrite Ep.
      repeat split; auto. repeat constructor. simpl. eauto.
    + eexists _, _. split; [reflexivity|]. rewrite Ep. auto.
  - eexists _, _. split; [reflexivity|]. simpl. auto.
Qed.

(** X3: draining the pending events, with the selection and the playing
    index on tracks and every [TrackStarted] naming a track, never panics,
    keeps the track list, keeps the selection and the playing index on
    tracks, and every [Play] command it sends names an index of the track
    list with that track's path. *)
Theorem drain_safe (es : list AppEvent) : forall (a : App),
  selection_ok a -> playing_ok a -> Forall (event_ok (List.length (tracks a))) es ->
  exists a' cmds, drain a es = Some (a', cmds) /\
    tracks a' = tracks a /\ selection_ok a' /\ playing_ok a' /\
    Forall (play_names_track (tracks a)) cmds.
Proof.
  induction es as [|e es IH]; intros a Hs Hp He.
  - eexists _, _. split; [reflexivity|]. auto.
  - inversion He as [|? ? He1 Hes]; subst.
    destruct (handle_event_inv a e Hs Hp He1) as [a1 [c1 [E [Ht [Hs1 [Hp1 Hc1]]]]]].
    rewrite <- Ht in Hes.
    destruct (IH a1 Hs1 Hp1 Hes) as [a2 [c2 [E2 [Ht2 [Hs2 [Hp2 Hc2]]]]]].
    simpl. rewrite E, E2. eexists _, _. split; [reflexivity|].
    rewrite Ht2, Ht. repeat split; auto.
    apply Forall_app. rewrite Ht in Hc2. auto.
Qed.

(** Instance of [drain_safe]: track 1 of two starts, then ends. *)
Lemma drain_safe_witness :
  let a := set_selected (new [mkTrack 0 "a.mp3" None None; mkTrack 1 "b.mp3" None None]) 1 in
  selection_ok a /\ playing_ok a /\
  Forall (event_ok 2) [TrackStarted 1 (Some 30%N); Progress 3%N; TrackEnded] /\
  exists a' cmds, drain a [TrackStarted 1 (Some 30%N); Progress 3%N; TrackEnded] = Some (a', cmds) /\
    tracks a' = tracks a /\ selection_ok a' /\ playing_ok a' /\
    Forall (play_names_track (tracks a)) cmds.
Proof.
  intros a.
  assert (H1 : selection_ok a) by (unfold selection_ok; simpl; lia).
  assert (H2 : playing_ok a) by exact I.
  assert (H3 : Forall (event_ok 2) [TrackStarted 1 (Some 30%N); Progress 3%N; TrackEnded])
    by (repeat constructor; simpl; lia).
  split; [exact H1|]. split; [exact H2|]. split; [exact H3|].
  exact (drain_safe _ a H1 H2 H3).
Defined.

(** X4: the controller never enters [Paused]: from a status other than
    [Paused], neither draining events nor a key press (Space included)
    leads to [Paused]. *)
Theorem never_paused (a : App) (Hst : status a <> Paused) :
  (forall es a' cmds, drain a es = Some (a', cmds) -> status a' <> Paused) /\
  (forall k a' cmds, handle_key a k = Some (Continue a' cmds) -> status a' <> Paused).
Proof.
  split.
  - intros es. revert a Hst. induction es as [|e es IH]; intros a Hst a' cmds H; simpl in H.
    + inversion H; subst; auto.
    + destruct (handle_event a e) as [[a1 c1]|] eqn:E; [|discriminate].
      destruct (drain a1 es) as [[a2 c2]|] eqn:E2; [|discriminate].
      inversion H; subst.
      apply (IH a1) with (cmds := c2); [|exact E2].
      destruct e as [i d|p| |msg]; simpl in E.
      * inversion E; subst; simpl; discriminate.
      * inversion E; subst; simpl; auto.
      * destruct (playing a) as [i|].
        -- destruct (track_at _ _); inversion E; subst; simpl; auto.
        -- inversion E; subst; auto.
      * inversion E; subst; simpl; discriminate.
  - intros k a' cmds H.
    assert (Hp : forall i, play_at a i = Some (Continue a' cmds) -> status a' <> Paused).
    { intros i. unfold play_at. destruct (track_at _ _); intros Hi; inversion Hi; subst; simpl; auto. }
    destruct k as [c| | | |]; simpl in H.
    + destruct (Ascii.eqb c "q"%char); [discriminate|].
      destruct (Ascii.eqb c "j"%char).
      { inversion H; subst. unfold key_down. destruct (Nat.ltb _ _); simpl; auto. }
      destruct (Ascii.eqb c "k"%char).
      { inversion H; subst. unfold key_up. destruct (Nat.ltb _ _); simpl; auto. }
      destruct (Ascii.eqb c " "%char); [inversion H; subst; auto|].
      destruct (Ascii.eqb c "]"%char); [exact (Hp _ H)|].
      destruct (Ascii.eqb c "["%char); [exact (Hp _ H)|].
      destruct (Ascii.eqb c "+"%char); [inversion H; subst; simpl; auto|].
      destruct (Ascii.eqb c "-"%char); inversion H; subst; simpl; auto.
    + inversion H; subst. unfold key_down. destruct (Nat.ltb _ _); simpl; auto.
    + inversion H; subst. unfold key_up. destruct (Nat.ltb _ _); simpl; auto.
    + destruct (track_at _ _); inversion H; subst; auto.
    + inversion H; subst; auto.
Qed.

(** Instance of [never_paused] from [App::new]. *)
Lemma never_paused_witness :
  status (new [mkTrack 0 "a.mp3" None None]) <> Paused /\
  (forall es a' cmds, drain (new [mkTrack 0 "a.mp3" None None]) es = Some (a', cmds) ->
                      status a' <> Paused) /\
  (forall k a' cmds, handle_key (new [mkTrack 0 "a.mp3" None None]) k = Some (Continue a' cmds) ->
                     status a' <> Paused).
Proof.
  assert (H : status (new [mkTrack 0 "a.mp3" None None]) <> Paused) by discriminate.
  split; [exact H|]. exact (never_paused _ H).
Defined.


Lemma volume_up_in_range (v : F32.f32) :
  F32.le F32.zero v = true -> F32.le F32.zero (volume_up v) = true /\ F32.le (volume_up v) F32.two = true.
Proof.
  intros H. split; [|apply F32Facts.le_min_r].
  unfold volume_up, F32.min. destruct (F32.lt _ _); [reflexivity|].
  apply F32Extras.add_c0_05_nonneg; exact H.
Qed.

Lemma volume_down_in_range (v : F32.f32) :
  F32.le v F32.two = true -> F32.le F32.zero (volume_down v) = true /\ F32.le (volume_down v) F32.two = true.
Proof.
  intros H. split; [apply F32Facts.le_zero_max|].
  unfold volume_down, F32.max. destruct (F32.lt _ _); [reflexivity|].
  apply F32Extras.sub_c0_05_le_two; exact H.
Qed.

(** X5: the volume stays within [0.0, 2.0]: from a volume in that range,
    every key press leaves it in that range, the rounding of the f32
    [+ 0.05] and [- 0.05] included. *)
Theorem handle_key_volume_range (a a' : App) (k : KeyCode) (cmds : list AppCommand)
  (H0 : F32.le F32.zero (volume a) = true) (H2 : F32.le (volume a) F32.two = true)
  (H : handle_key a k = Some (Continue a' cmds)) :
  F32.le F32.zero (volume a') = true /\ F32.le (volume a') F32.two = true.
Proof.
  assert (Hp : forall i, play_at a i = Some (Continue a' cmds) -> volume a' = volume a).
  { intros i. unfold play_at. destruct (track_at _ _); intros Hi; inversion Hi; subst; reflexivity. }
  assert (Hd : volume (key_down a) = volume a) by (unfold key_down; destruct (Nat.ltb _ _); reflexivity).
  assert (Hu : volume (key_up a) = volume a) by (unfold key_up; destruct (Nat.ltb _ _); reflexivity).
  destruct k as [c| | | |]; simpl in H.
  - destruct (Ascii.eqb c "q"%char); [discriminate|].
    destruct (Ascii.eqb c "j"%char); [inversion H; subst; rewrite Hd; auto|].
    destruct (Ascii.eqb c "k"%char); [inversion H; subst; rewrite Hu; auto|].
    destruct (Ascii.eqb c " "%char); [inversion H; subst; auto|].
    destruct (Ascii.eqb c "]"%char); [rewrite (Hp _ H); auto|].
    destruct (Ascii.eqb c "["%char); [rewrite (Hp _ H); auto|].
    destruct (Ascii.eqb c "+"%char); [inversion H; subst; apply volume_up_in_range; exact H0|].
    destruct (Ascii.eqb c "-"%char); inversion H; subst; [apply volume_down_in_range; exact H2|auto].
  - inversion H; subst. rewrite Hd; auto.
  - inversion H; subst. rewrite Hu; auto.
  - destruct (track_at _ _); inversion H; subst; auto.
  - inversion H; subst; auto.
Qed.

(** Instance of [handle_key_volume_range]: ['-'] from [App::new]
    (volume 1.0). *)
Lemma handle_key_volume_range_witness :
  F32.le F32.zero (volume (new [])) = true /\ F32.le (volume (new [])) F32.two = true /\
  F32.le F32.zero (volume_down F32.one) = true /\ F32.le (volume_down F32.one) F32.two = true.
Proof.
  assert (H0 : F32.le F32.zero (volume (new [])) = true) by reflexivity.
  assert (H2 : F32.le (volume (new [])) F32.two = true) by reflexivity.
  split; [exact H0|]. split; [exact H2|].
  exact (handle_key_volume_range (new []) (set_volume (new []) (volume_down F32.one))
           (KChar "-"%char) [SetVolume (volume_down F32.one)] H0 H2 eq_refl).
Defined.

End ControllerExtras.

(* ================================================================== *)
(** * Further properties of the playback engine *)

Module EngineExtras.
Import Common Engine EngineSchedule.
Local Open Scope N_scope.

Lemma clock_ok_mono (t now : Instant) (st : State) :
  (t <= now)%N -> clock_ok t st -> clock_ok now st.
Proof.
  unfold clock_ok. intros Ht H.
  destruct (sink st) as [s|]; auto.
  intros t0 E. specialize (H t0 E). destruct (sink_paused s); lia.
Qed.

Lemma exec_cmd_clock (env : Env) (t now : Instant) (st : State) (c : AppCommand) :
  (t <= now)%N -> clock_ok t st ->
  exists st' evs, exec_cmd env now st c = Some (st', evs) /\ clock_ok now st'.
Proof.
  intros Ht H. pose proof (clock_ok_mono _ _ _ Ht H) as Hn. clear H Ht.
  unfold clock_ok in *.
  destruct c as [i p| |v]; simpl.
  - destruct (open_file env p) as [f|]; [|eexists _, _; split; [reflexivity|exact I]].
    destruct (decode env f) as [src|]; [|eexists _, _; split; [reflexivity|exact I]].
    eexists _, _. split; [reflexivity|]. simpl. intros t0 E. inversion E; lia.
  - destruct (sink st) as [s|] eqn:Es; [|eexists _, _; split; [reflexivity|rewrite Es; exact I]].
    destruct (sink_paused s) eqn:Ep.
    + destruct (start_at st) as [t0|] eqn:Et.
      * specialize (Hn t0 eq_refl).
        unfold checked_sub, elapsed.
        replace (N.leb (paused_acc st) (now - t0)) with true by (symmetry; apply N.leb_le; lia).
        replace (N.leb (now - t0 - paused_acc st) now) with true by (symmetry; apply N.leb_le; lia).
        eexists _, _. split; [reflexivity|]. simpl. intros t1 E. inversion E; lia.
      * eexists _, _. split; [reflexivity|]. simpl. intros t1 E. discriminate.
    + destruct (start_at st) as [t0|] eqn:Et.
      * specialize (Hn t0 eq_refl).
        eexists _, _. split; [reflexivity|]. simpl. intros t1 E. inversion E; subst.
        unfold elapsed. lia.
      * eexists _, _. split; [reflexivity|]. simpl. intros t1 E. discriminate.
  - eexists _, _. split; [reflexivity|]. simpl.
    destruct (sink st) as [s|]; simpl; auto.
Qed.

Lemma tick_clock (now : Instant) (em : bool) (st : State) :
  clock_ok now st -> clock_ok now (fst (tick now em st)).
Proof.
  unfold clock_ok, tick. intros H.
  destruct (sink st) as [s|] eqn:Es; [|simpl; rewrite Es; exact I].
  destruct em; simpl; [exact I|].
  destruct (start_at st) eqn:Et; simpl; rewrite Es; rewrite <- Et in H; exact H.
Qed.

Lemma run_clock (env : Env) (ins : list Input) : forall (t : Instant) (st : State),
  clock_ok t st -> times_from t ins -> exists st' evs, run env st ins = Some (st', evs).
Proof.
  induction ins as [|i ins IH]; intros t st Hc Ht.
  - eexists _, _. reflexivity.
  - destruct Ht as [Hle Hrest].
    destruct i as [now c|now em]; simpl in Hle, Hrest |- *.
    + destruct (exec_cmd_clock env t now st c Hle Hc) as [st1 [e1 [E Hc1]]].
      rewrite E. destruct (IH now st1 Hc1 Hrest) as [st2 [e2 E2]].
      rewrite E2. eauto.
    + pose proof (tick_clock now em st (clock_ok_mono _ _ _ Hle Hc)) as Hc1.
      destruct (tick now em st) as [st1 e1] eqn:E. simpl in Hc1.
      destruct (IH now st1 Hc1 Hrest) as [st2 [e2 E2]].
      rewrite E2. eauto.
Qed.

(** X6: the engine thread never panics when the instants at which it
    reads the clock never go backwards: from the initial state, every
    schedule of commands and periodic checks with non-decreasing instants
    runs to the end, whatever the files, the decoder and the commands. *)
Theorem run_no_panic (env : Env) (t : Instant) (ins : list Input)
  (Ht : times_from t ins) :
  exists st' evs, run env init ins = Some (st', evs).
Proof. exact (run_clock env ins t init I Ht). Qed.

(** Instance of [run_no_panic]: play, pause, resume twice and check. *)
Lemma run_no_panic_witness :
  times_from 0 [Cmd 1 (Play 0%nat "a.mp3"); Cmd 4 TogglePlayPause; Tick 6 false;
                Cmd 9 TogglePlayPause; Cmd 9 TogglePlayPause; Cmd 12 TogglePlayPause;
                Tick 20 false; Tick 21 true] /\
  exists st' evs, run env_ok init
     [Cmd 1 (Play 0%nat "a.mp3"); Cmd 4 TogglePlayPause; Tick 6 false;
      Cmd 9 TogglePlayPause; Cmd 9 TogglePlayPause; Cmd 12 TogglePlayPause;
      Tick 20 false; Tick 21 true] = Some (st', evs).
Proof.
  assert (H : times_from 0 [Cmd 1 (Play 0%nat "a.mp3"); Cmd 4 TogglePlayPause; Tick 6 false;
                Cmd 9 TogglePlayPause; Cmd 9 TogglePlayPause; Cmd 12 TogglePlayPause;
                Tick 20 false; Tick 21 true]) by (simpl; lia).
  split; [exact H|]. exact (run_no_panic env_ok 0 _ H).
Defined.


(** X7: pausing and resuming moves the reported position back to the
    time elapsed since the pause began: after [Play] at [t0], a pause at
    [t1], a resume at [t2] and a periodic check at [t3] (in that order),
    the engine reports [Progress (t3 - t1)], not the time actually played,
    [(t1 - t0) + (t3 - t2)]. *)
Theorem pause_resume_progress (env : Env) (st : State) (i : nat) (p : PathBuf) (f : string)
  (src : Source) (t0 t1 t2 t3 : Instant)
  (Ho : open_file env p = Some f) (Hd : decode env f = Some src)
  (H01 : t0 <= t1) (H12 : t1 <= t2) (H23 : t2 <= t3) :
  exists st',
    run env st [Cmd t0 (Play i p); Cmd t1 TogglePlayPause; Cmd t2 TogglePlayPause; Tick t3 false]
      = Some (st', [TrackStarted i (total_duration src); Progress (t3 - t1)]).
Proof.
  simpl. rewrite Ho, Hd. simpl.
  unfold checked_sub, elapsed.
  replace (N.leb (t1 - t0) (t2 - t0)) with true by (symmetry; apply N.leb_le; lia).
  replace (N.leb (t2 - t0 - (t1 - t0)) t2) with true by (symmetry; apply N.leb_le; lia).
  simpl. replace (t2 - (t2 - t0 - (t1 - t0))) with t1 by lia.
  eexists. reflexivity.
Qed.

(** Instance of [pause_resume_progress]: play at 0, pause at 10, resume
    at 15, check at 20: the position reported is 10, the time played 15. *)
Lemma pause_resume_progress_witness :
  exists st',
    run env_ok init [Cmd 0 (Play 0%nat "a.mp3"); Cmd 10 TogglePlayPause;
                     Cmd 15 TogglePlayPause; Tick 20 false]
      = Some (st', [TrackStarted 0%nat (Some 100); Progress 10]).
Proof.
  exact (pause_resume_progress env_ok init 0%nat "a.mp3" "a.mp3" (mkSource (Some 100))
           0 10 15 20 eq_refl eq_refl ltac:(lia) ltac:(lia) ltac:(lia)).
Defined.

Lemma exec_cmd_volume (env : Env) (now : Instant) (st st' : State) (c : AppCommand)
  (evs : list AppEvent) :
  (forall s, sink st = Some s -> sink_volume s = volume st) ->
  exec_cmd env now st c = Some (st', evs) ->
  forall s, sink st' = Some s -> sink_volume s = volume st'.
Proof.
  intros Hv H. destruct c as [i p| |v]; simpl in H.
  - destruct (open_file env p) as [f|]; [|inversion H; subst; simpl; discriminate].
    destruct (decode env f) as [src|]; [|inversion H; subst; simpl; discriminate].
    inversion H; subst. simpl. intros s E. inversion E; reflexivity.
  - destruct (sink st) as [s0|] eqn:Es; [|inversion H; subst; rewrite Es; discriminate].
    specialize (Hv s0 eq_refl).
    destruct (sink_paused s0).
    + destruct (start_at st) as [t0|].
      * destruct (checked_sub _ _) as [d|]; [|discriminate].
        destruct (checked_sub _ _) as [t1|]; [|discriminate].
        inversion H; subst. simpl. intros s E. inversion E; subst. exact Hv.
      * inversion H; subst. simpl. intros s E. inversion E; subst. exact Hv.
    + destruct (start_at st) as [t0|];
        inversion H; subst; simpl; intros s E; inversion E; subst; exact Hv.
  - inversion H; subst. simpl. destruct (sink st) as [s0|]; simpl; intros s E;
      inversion E; reflexivity.
Qed.

Lemma run_volume (env : Env) (ins : list Input) : forall (st st' : State) (evs : list AppEvent),
  (forall s, sink st = Some s -> sink_volume s = volume st) ->
  run env st ins = Some (st', evs) ->
  forall s, sink st' = Some s -> sink_volume s = volume st'.
Proof.
  induction ins as [|i ins IH]; intros st st' evs Hv H; simpl in H.
  - inversion H; subst; exact Hv.
  - destruct i as [now c|now em].
    + destruct (exec_cmd env now st c) as [[st1 e1]|] eqn:E; [|discriminate].
      destruct (run env st1 ins) as [[st2 e2]|] eqn:E2; [|discriminate].
      inversion H; subst.
      exact (IH st1 st' e2 (exec_cmd_volume env now st st1 c e1 Hv E) E2).
    + destruct (tick now em st) as [st1 e1] eqn:Et.
      destruct (run env st1 ins) as [[st2 e2]|] eqn:E2; [|discriminate].
      inversion H; subst.
      apply (IH st1 st' e2); [|exact E2].
      unfold tick in Et. destruct (sink st) as [s0|] eqn:Es.
      * destruct em; [inversion Et; subst; simpl; discriminate|].
        destruct (start_at st); inversion Et; subst; rewrite Es; exact Hv.
      * inversion Et; subst. rewrite Es. discriminate.
Qed.

(** X8: the sink always plays at the engine's current volume: after any
    run from the initial state, a loaded sink's volume is the last volume
    set (1.0 if none), also when the volume was set before the track was
    loaded. *)
Theorem run_sink_volume (env : Env) (ins : list Input) (st' : State) (evs : list AppEvent)
  (H : run env init ins = Some (st', evs)) :
  forall s, sink st' = Some s -> sink_volume s = volume st'.
Proof. apply (run_volume env ins init st' evs); [discriminate|exact H]. Qed.

(** Instance of [run_sink_volume]: set the volume to 0.5 with nothing
    loaded, then play. *)
Lemma run_sink_volume_witness :
  run env_ok init [Cmd 0 (SetVolume (F32.mk 1 (-1))); Cmd 1 (Play 0%nat "a.mp3")]
    = Some (mkState (Some (mkSink false (F32.mk 1 (-1)) (mkSource (Some 100))))
                    (F32.mk 1 (-1)) (Some 1) 0,
            [TrackStarted 0%nat (Some 100)]) /\
  sink_volume (mkSink false (F32.mk 1 (-1)) (mkSource (Some 100))) = F32.mk 1 (-1).
Proof.
  assert (H : run env_ok init [Cmd 0 (SetVolume (F32.mk 1 (-1))); Cmd 1 (Play 0%nat "a.mp3")]
    = Some (mkState (Some (mkSink false (F32.mk 1 (-1)) (mkSource (Some 100))))
                    (F32.mk 1 (-1)) (Some 1) 0,
            [TrackStarted 0%nat (Some 100)])) by reflexivity.
  split; [exact H|].
  exact (run_sink_volume env_ok _ _ _ H _ eq_refl).
Defined.

(** X9: with no stream loaded (at start-up, after a track ended, or after
    a failed [Play]), the engine stays silent until the next [Play]: pause
    toggles, volume changes and periodic checks send no event and load
    nothing. *)
Theorem idle_silent (env : Env) (ins : list Input) : forall (st : State),
  sink st = None -> forallb no_play ins = true ->
  exists st', run env st ins = Some (st', []) /\ sink st' = None.
Proof.
  induction ins as [|i ins IH]; intros st Hs Hn.
  - exists st. auto.
  - simpl in Hn. apply andb_prop in Hn. destruct Hn as [Hi Hn].
    destruct i as [now c|now em]; simpl.
    + destruct c as [ix p| |v]; simpl in Hi; try discriminate.
      * simpl. rewrite Hs. destruct (IH st Hs Hn) as [st' [E Hs']].
        rewrite E. eauto.
      * simpl. destruct (IH (mkState (match sink st with Some s => Some (mkSink (sink_paused s) v (sink_source s)) | None => None end) v (start_at st) (paused_acc st)))
          as [st' [E Hs']]; [simpl; rewrite Hs; reflexivity|exact Hn|].
        rewrite E. eauto.
    + unfold tick. rewrite Hs. destruct (IH st Hs Hn) as [st' [E Hs']].
      rewrite E. eauto.
Qed.

(** Instance of [idle_silent]: after the end of a track, toggles, a volume
    change and checks. *)
Lemma idle_silent_witness :
  sink (mkState None F32.one None 0) = None /\
  forallb no_play [Cmd 5 TogglePlayPause; Tick 6 false; Cmd 7 (SetVolume F32.two); Tick 8 true] = true /\
  exists st', run env_ok (mkState None F32.one None 0)
      [Cmd 5 TogglePlayPause; Tick 6 false; Cmd 7 (SetVolume F32.two); Tick 8 true] = Some (st', [])
    /\ sink st' = None.
Proof.
  assert (H1 : sink (mkState None F32.one None 0) = None) by reflexivity.
  assert (H2 : forallb no_play [Cmd 5 TogglePlayPause; Tick 6 false; Cmd 7 (SetVolume F32.two);
                                Tick 8 true] = true) by reflexivity.
  split; [exact H1|]. split; [exact H2|].
  exact (idle_silent env_ok _ _ H1 H2).
Defined.

End EngineExtras.

(* ================================================================== *)
(** * Further properties of the layout and of its cache *)

Module LayoutExtras.
Import Layout LayoutRegions LayoutCache.
Local Open Scope N_scope.

(** Name the segments of the [Layout::split] call of direction [d] in the
    goal, using the guarantees [Ht]. *)
Ltac segments Ht d :=
  match goal with
  | |- context [?split d ?cs ?a] =>
      let Hlen := fresh "Hlen" in
      let Hall := fresh "Hall" in
      let Hch := fresh "Hch" in
      destruct (Ht d cs a) as [Hlen [Hall Hch]];
      destruct (split d cs a) as [|? [|? [|? [|? [|? ?]]]]];
      simpl in Hlen; try discriminate;
      repeat rewrite Forall_cons_iff in Hall; simpl in Hch
  end.

(** X10: [calculate_layout] never panics, for any terminal size: it
    returns a layout whose regions all lie within the terminal, with a
    visualization region exactly when the width is at least 80; this
    holds for any [Layout::split] that keeps its segments in order inside
    the area. *)
Theorem calculate_layout_inside (split : Direction -> list Constraint -> Rect -> list Rect)
  (Ht : split_tiles split) (size : Rect) :
  exists L, calculate_layout split size = Some L /\
    Forall (fun r => inside r size) (regions L) /\
    (visualization L = None <-> width size < 80).
Proof.
  unfold calculate_layout; cbn zeta.
  segments Ht Vertical. cbn [nth_error].
  destruct (is_compact_mode size) eqn:Ec; unfold is_compact_mode in Ec.
  - apply N.ltb_lt in Ec.
    eexists. split; [reflexivity|]. unfold regions, inside. cbn.
    split; [repeat constructor; lia|]. split; auto.
  - apply N.ltb_ge in Ec.
    segments Ht Horizontal. cbn [nth_error].
    eexists. split; [reflexivity|]. unfold regions, inside. cbn.
    split; [repeat constructor; lia|]. split; [discriminate|lia].
Qed.

(** Instance of [calculate_layout_inside] with the model solver, 100 x 30
    at an offset. *)
Lemma calculate_layout_inside_witness :
  split_tiles model_split /\
  exists L, calculate_layout model_split (mkRect 2 1 100 30) = Some L /\
    Forall (fun r => inside r (mkRect 2 1 100 30)) (regions L) /\
    (visualization L = None <-> width (mkRect 2 1 100 30) < 80).
Proof.
  split; [exact LayoutFacts.model_split_tiles|].
  exact (calculate_layout_inside model_split LayoutFacts.model_split_tiles (mkRect 2 1 100 30)).
Defined.

(** X11: [App::get_layout] never panics and always returns the layout of
    the size asked for: from a cache that holds the layout of the size it
    is keyed by (as the empty cache of [App::new] does), it returns
    [calculate_layout] of the current size, recomputed or cached, and the
    new cache again holds the layout of its key. *)
Theorem get_layout_current (split : Direction -> list Constraint -> Rect -> list Rect)
  (Ht : split_tiles split) (cache : Cache) (Hc : cache_ok split cache) (w h : N) :
  exists cache' L, get_layout split cache w h = Some (cache', L) /\
    calculate_layout split (terminal w h) = Some L /\ cache_ok split cache'.
Proof.
  destruct (calculate_layout_inside split Ht (terminal w h)) as [L [HL _]].
  unfold get_layout.
  destruct cache as [[[cw ch] l]|].
  - simpl in Hc.
    destruct (N.eqb cw w) eqn:Ew; destruct (N.eqb ch h) eqn:Eh; simpl;
      try (unfold terminal in HL; rewrite HL; eexists _, _; split; [reflexivity|];
           split; [exact HL|exact HL]).
    apply N.eqb_eq in Ew, Eh. subst.
    eexists _, _. split; [reflexivity|]. split; exact Hc.
  - simpl. unfold terminal in HL. rewrite HL.
    eexists _, _. split; [reflexivity|]. split; exact HL.
Qed.

(** Instance of [get_layout_current]: the first frame, 120 x 40, from the
    empty cache. *)
Lemma get_layout_current_witness :
  split_tiles model_split /\ cache_ok model_split None /\
  exists cache' L, get_layout model_split None 120 40 = Some (cache', L) /\
    calculate_layout model_split (terminal 120 40) = Some L /\ cache_ok model_split cache'.
Proof.
  assert (Hc : cache_ok model_split None) by exact I.
  split; [exact LayoutFacts.model_split_tiles|]. split; [exact Hc|].
  exact (get_layout_current model_split LayoutFacts.model_split_tiles None Hc 120 40).
Defined.

End LayoutExtras.

(* ================================================================== *)
(** * Further properties of the waveform window, the scan and the clock
      display *)

Module WaveExtras.
Import Wave.

(** X12: the waveform is a rolling window of fixed size: feeding the
    samples of successive loop iterations to a non-empty window (the 80
    zeros of [App::new]) keeps its length and leaves exactly the last
    samples, oldest first. *)
Theorem wave_feed_window (ss : list N) : forall (wave : list N),
  wave <> [] ->
  wave_feed wave ss = skipn (List.length ss) (wave ++ ss) /\
  List.length (wave_feed wave ss) = List.length wave.
Proof.
  induction ss as [|s ss IH]; intros wave Hw.
  - simpl. rewrite app_nil_r. auto.
  - destruct wave as [|w rest]; [congruence|].
    change (wave_feed (w :: rest) (s :: ss)) with (wave_feed (rest ++ [s])%list ss).
    destruct (IH (rest ++ [s])%list) as [E L].
    { destruct rest; discriminate. }
    rewrite L, E. rewrite <- app_assoc.
    rewrite length_app. simpl. split; [reflexivity|lia].
Qed.

(** Instance of [wave_feed_window]: three samples into the initial
    window. *)
Lemma wave_feed_window_witness :
  initial_wave <> [] /\
  wave_feed initial_wave [5; 7; 9]%N = skipn 3 (initial_wave ++ [5; 7; 9]%N) /\
  List.length (wave_feed initial_wave [5; 7; 9]%N) = List.length initial_wave.
Proof.
  assert (H : initial_wave <> []) by discriminate.
  split; [exact H|]. exact (wave_feed_window [5; 7; 9]%N initial_wave H).
Defined.

End WaveExtras.

Module ScanExtras.
Import Common Scan.

Lemma ascii_lower_small (c : Ascii.ascii) :
  (Ascii.nat_of_ascii (ascii_lower c) < 128)%nat -> (Ascii.nat_of_ascii c < 128)%nat.
Proof.
  unfold ascii_lower. destruct (_ && _) eqn:E; [|auto].
  intros _. apply andb_prop in E. destruct E as [_ E]. apply Nat.leb_le in E. lia.
Qed.

(** Text that lowercases to ASCII is ASCII, hence valid UTF-8. *)
Lemma ascii_only_valid (x : string) :
  (forall c, In c (list_ascii_of_string (to_lowercase x)) -> (Ascii.nat_of_ascii c < 128)%nat) ->
  utf8_valid x = true.
Proof.
  induction x as [|c r IH]; intros H; [reflexivity|].
  cbn [to_lowercase list_ascii_of_string In] in H.
  assert (Hc : (Ascii.nat_of_ascii c < 128)%nat)
    by (apply ascii_lower_small, H; left; reflexivity).
  cbn [utf8_valid].
  replace (Ascii.nat_of_ascii c <? 128)%nat with true by (symmetry; apply Nat.ltb_lt; exact Hc).
  apply IH. intros c' Hc'. apply H. right. exact Hc'.
Qed.

(** A supported extension passes [to_str]. *)
Lemma supported_utf8 (x : string) : supported x = true -> utf8_valid x = true.
Proof.
  unfold supported. intros H. apply ascii_only_valid.
  repeat rewrite orb_true_iff in H.
  destruct H as [[[H|H]|H]|H]; apply String.eqb_eq in H; rewrite H;
    intros c Hc; simpl in Hc; repeat destruct Hc as [<-|Hc];
    try (apply Nat.ltb_lt; reflexivity); contradiction.
Qed.

(** The path an entry contributes to the scan, if any. *)
Lemma scan_step_paths (out : list Track) (e : option DirEntry) :
  map path (scan_step out e) =
    (map path out ++
     match e with
     | Some en =>
         if entry_is_file en &&
            match extension (entry_path en) with Some x => supported x | None => false end
         then [entry_path en] else []
     | None => []
     end)%list.
Proof.
  destruct e as [en|]; simpl; [|rewrite app_nil_r; reflexivity].
  destruct (entry_is_file en); simpl; [|rewrite app_nil_r; reflexivity].
  destruct (extension (entry_path en)) as [x|]; [|rewrite app_nil_r; reflexivity].
  destruct (supported x) eqn:Es.
  - rewrite (supported_utf8 x Es). simpl. rewrite map_app. reflexivity.
  - rewrite andb_false_r. rewrite app_nil_r. reflexivity.
Qed.

Lemma fold_paths (es : list (option DirEntry)) : forall out,
  map path (fold_left scan_step es out) =
    (map path out ++
     flat_map (fun e => match e with
                        | Some en =>
                            if entry_is_file en &&
                               match extension (entry_path en) with
                               | Some x => supported x | None => false end
                            then [entry_path en] else []
                        | None => []
                        end) es)%list.
Proof.
  induction es as [|e es IH]; intros out; simpl.
  - rewrite app_nil_r. reflexivity.
  - rewrite IH, scan_step_paths, app_assoc. reflexivity.
Qed.

(** X13: [scan_directory] returns, in walk order, exactly the paths of the
    entries that were read without error, are regular files and have an
    extension that is [mp3], [flac], [ogg] or [wav] in any letter case;
    unreadable entries, directories and other files are skipped. *)
Theorem scan_directory_paths (es : list (option DirEntry)) :
  map path (scan_directory es) =
    flat_map (fun e => match e with
                       | Some en =>
                           if entry_is_file en &&
                              match extension (entry_path en) with
                              | Some x => supported x | None => false end
                           then [entry_path en] else []
                       | None => []
                       end) es.
Proof. unfold scan_directory. rewrite fold_paths. reflexivity. Qed.

Lemma fold_tracks (es : list (option DirEntry)) : forall out,
  (forall i t, nth_error out i = Some t -> track_ok i t) ->
  forall i t, nth_error (fold_left scan_step es out) i = Some t -> track_ok i t.
Proof.
  induction es as [|e es IH]; intros out Hout; simpl; [exact Hout|].
  apply IH. intros i t.
  assert (Hadd : forall x, track_ok (List.length out) x ->
            nth_error (out ++ [x])%list i = Some t -> track_ok i t).
  { intros x Hx Hi.
    destruct (Nat.lt_ge_cases i (List.length out)) as [Hlt|Hge].
    - rewrite nth_error_app1 in Hi by exact Hlt. exact (Hout i t Hi).
    - rewrite nth_error_app2 in Hi by exact Hge.
      destruct (i - List.length out)%nat as [|k] eqn:Ek.
      + simpl in Hi. inversion Hi; subst.
        replace i with (List.length out) by lia. exact Hx.
      + destruct k; discriminate. }
  destruct e as [en|]; simpl; [|apply Hout].
  destruct (entry_is_file en); simpl; [|apply Hout].
  destruct (extension (entry_path en)) as [x|]; [|apply Hout].
  destruct (utf8_valid x && supported x); [|apply Hout].
  apply Hadd. unfold track_ok, title_of; simpl. auto.
Qed.

(** X14: every track [scan_directory] returns has its position in the
    list as its [id] and no duration; its title is its file name when the
    name is valid UTF-8, and none otherwise ([to_str] fails). *)
Theorem scan_directory_tracks (es : list (option DirEntry)) (i : nat) (t : Track)
  (H : nth_error (scan_directory es) i = Some t) :
  id t = N.of_nat i /\ duration t = None /\
  title t = (if utf8_valid (file_name (path t)) then Some (file_name (path t)) else None).
Proof.
  apply (fold_tracks es [] ltac:(intros [|?] ? E; discriminate) i t H).
Qed.

(** Instance of [scan_directory_tracks]: a directory, a hidden [.mp3], an
    unreadable entry, a [.txt], an upper-case [.FLAC] file and an [.mp3]
    whose name holds the Latin-1 byte 0xE9; the latter is track 1, with
    no title. *)
Lemma scan_directory_tracks_witness :
  let p := ("/m/caf" ++ String (Ascii.ascii_of_nat 233) ".mp3")%string in
  let es := [Some (mkDirEntry "/m" false); Some (mkDirEntry "/m/.mp3" true); None;
             Some (mkDirEntry "/m/notes.txt" true); Some (mkDirEntry "/m/Song.FLAC" true);
             Some (mkDirEntry p true)] in
  nth_error (scan_directory es) 1 = Some (mkTrack 1 p None None) /\
  id (mkTrack 1 p None None) = N.of_nat 1 /\ duration (mkTrack 1 p None None) = None /\
  title (mkTrack 1 p None None) =
    (if utf8_valid (file_name (path (mkTrack 1 p None None)))
     then Some (file_name (path (mkTrack 1 p None None))) else None).
Proof.
  intros p es.
  assert (H : nth_error (scan_directory es) 1 = Some (mkTrack 1 p None None)) by reflexivity.
  split; [exact H|]. exact (scan_directory_tracks es 1 _ H).
Defined.

End ScanExtras.

Module TimeFormatExtras.
Import TimeFormat.
Local Open Scope N_scope.

Lemma string_to_uint_of (u : Decimal.uint) : string_to_uint (uint_to_string u) = Some u.
Proof. induction u; simpl; try rewrite IHu; reflexivity. Qed.

Lemma of_uint_D0 (u : Decimal.uint) : N.of_uint (Decimal.D0 u) = N.of_uint u.
Proof.
  rewrite <- DecimalN.Unsigned.of_uint_norm.
  change (Decimal.unorm (Decimal.D0 u)) with (Decimal.unorm u).
  apply DecimalN.Unsigned.of_uint_norm.
Qed.

Lemma to_uint_nonempty (n : N) : (1 <= String.length (uint_to_string (N.to_uint n)))%nat.
Proof.
  destruct n as [|p]; [simpl; lia|].
  simpl. pose proof (DecimalPos.Unsigned.to_uint_nonnil p) as H.
  destruct (Pos.to_uint p); simpl; try lia. congruence.
Qed.

Lemma string_to_uint_zero (s : string) :
  string_to_uint (String "0"%char s) = option_map Decimal.D0 (string_to_uint s).
Proof. simpl. destruct (string_to_uint s); reflexivity. Qed.

(** [fmt02] is at least two characters long and reads back as its
    number. *)
Lemma fmt02_read (n : N) :
  (2 <= String.length (fmt02 n))%nat /\ parse_dec (fmt02 n) = Some n.
Proof.
  pose proof (to_uint_nonempty n) as Hl.
  pose proof (string_to_uint_of (N.to_uint n)) as Hs.
  pose proof (DecimalN.Unsigned.of_to n) as Ho.
  unfold fmt02.
  destruct (uint_to_string (N.to_uint n)) as [|c1 [|c2 r]] eqn:E; simpl in Hl; [lia| |].
  - change (String.concat "" (repeat "0" (2 - String.length (String c1 ""))) ++ String c1 "")%string
      with (String "0"%char (String c1 "")).
    split; [simpl; lia|].
    change (parse_dec (String "0"%char (String c1 "")))
      with (option_map N.of_uint (string_to_uint (String "0"%char (String c1 "")))).
    rewrite string_to_uint_zero, Hs. cbn [option_map]. rewrite of_uint_D0, Ho. reflexivity.
  - change (String.concat "" (repeat "0" (2 - String.length (String c1 (String c2 r))))
              ++ String c1 (String c2 r))%string
      with (String c1 (String c2 r)).
    split; [simpl; lia|].
    change (parse_dec (String c1 (String c2 r)))
      with (option_map N.of_uint (string_to_uint (String c1 (String c2 r)))).
    rewrite Hs. cbn [option_map]. rewrite Ho. reflexivity.
Qed.

Lemma fmt02_small (n : N) : n < 60 -> String.length (fmt02 n) = 2%nat.
Proof.
  intros H.
  assert (Hall : forallb (fun k => Nat.eqb (String.length (fmt02 (N.of_nat k))) 2) (seq 0 60) = true)
    by reflexivity.
  rewrite forallb_forall in Hall.
  specialize (Hall (N.to_nat n)). rewrite N2Nat.id in Hall.
  apply Nat.eqb_eq, Hall, in_seq. lia.
Qed.

(** X15: the [MM:SS] text of [format_time] reads back to the exact number
    of seconds: it is a minutes field of at least two digits, a colon and
    a seconds field of exactly two digits, and 60 times the minutes plus
    the seconds (below 60) is the duration in seconds. *)
Theorem format_time_read (secs : N) :
  exists mm ss m s,
    format_time secs = (mm ++ ":" ++ ss)%string /\
    (2 <= String.length mm)%nat /\ String.length ss = 2%nat /\
    parse_dec mm = Some m /\ parse_dec ss = Some s /\
    s < 60 /\ secs = 60 * m + s.
Proof.
  exists (fmt02 (secs / 60)), (fmt02 (secs mod 60)), (secs / 60), (secs mod 60).
  destruct (fmt02_read (secs / 60)) as [L1 P1].
  destruct (fmt02_read (secs mod 60)) as [_ P2].
  assert (Hm : secs mod 60 < 60) by (apply N.mod_lt; discriminate).
  split; [reflexivity|]. split; [exact L1|]. split; [exact (fmt02_small _ Hm)|].
  split; [exact P1|]. split; [exact P2|]. split; [exact Hm|].
  apply N.div_mod. discriminate.
Qed.

End TimeFormatExtras.
